(** * DRAGON analyzer: VME buffer decoding, validity domain and unpacker

    A shallow embedding of the parts of the analyzer that decode CAEN ADC
    buffers ([vme/Vme.hxx], [vme/caen/Adc.cxx]), guard derived quantities
    ([utils/Functions.hxx]) and route MIDAS events ([Unpack.cxx]), together
    with the properties the specification states about them.

    Conventions.
    - A C++ integer is a [Z]; the width of the type is written out where the
      source narrows a value ([to_uint16]). A buffer word is a [uint32_t];
      the masks make every statement below hold for any [Z].
    - A [void] function that mutates a record passed by reference is a
      function from the record to an [outcome] holding the new record.
    - Text written to [std::cerr] or to [err::Error] is not part of the
      state: logging is outside the core. *)

From Equations Require Import Equations.
From stdpp Require Import base list gmap strings fin_maps.
From Stdlib Require Import ZArith Lia Permutation Ascii.

Open Scope Z_scope.

(** ** vme/Vme.hxx: the "no data" code and the validity predicates *)

Module Vme.

(** [const int16_t NONE = -1;] (the default, [VME_NO_DATA] not defined). *)
Definition NONE : Z := -1.

(** A Sample: a channel value, of type [int16_t]. *)
Definition is_sample (x : Z) : Prop := - 2 ^ 15 <= x < 2 ^ 15.

(** [template <class T> bool is_valid(const T& t)] *)
Definition is_valid (t : Z) : bool := negb (t =? NONE).

(** The overloads for two to ten values. C++ resolves them by arity; here
    each arity has its own name. [&&] associates to the left in both
    languages. *)
Definition is_valid2 (t1 t2 : Z) : bool :=
  negb (t1 =? NONE) && negb (t2 =? NONE).

Definition is_valid3 (t1 t2 t3 : Z) : bool :=
  negb (t1 =? NONE) && negb (t2 =? NONE) && negb (t3 =? NONE).

Definition is_valid4 (t1 t2 t3 t4 : Z) : bool :=
  negb (t1 =? NONE) && negb (t2 =? NONE) && negb (t3 =? NONE) &&
  negb (t4 =? NONE).

Definition is_valid5 (t1 t2 t3 t4 t5 : Z) : bool :=
  negb (t1 =? NONE) && negb (t2 =? NONE) && negb (t3 =? NONE) &&
  negb (t4 =? NONE) && negb (t5 =? NONE).

Definition is_valid6 (t1 t2 t3 t4 t5 t6 : Z) : bool :=
  negb (t1 =? NONE) && negb (t2 =? NONE) && negb (t3 =? NONE) &&
  negb (t4 =? NONE) && negb (t5 =? NONE) && negb (t6 =? NONE).

Definition is_valid7 (t1 t2 t3 t4 t5 t6 t7 : Z) : bool :=
  negb (t1 =? NONE) && negb (t2 =? NONE) && negb (t3 =? NONE) &&
  negb (t4 =? NONE) && negb (t5 =? NONE) && negb (t6 =? NONE) &&
  negb (t7 =? NONE).

Definition is_valid8 (t1 t2 t3 t4 t5 t6 t7 t8 : Z) : bool :=
  negb (t1 =? NONE) && negb (t2 =? NONE) && negb (t3 =? NONE) &&
  negb (t4 =? NONE) && negb (t5 =? NONE) && negb (t6 =? NONE) &&
  negb (t7 =? NONE) && negb (t8 =? NONE).

Definition is_valid9 (t1 t2 t3 t4 t5 t6 t7 t8 t9 : Z) : bool :=
  negb (t1 =? NONE) && negb (t2 =? NONE) && negb (t3 =? NONE) &&
  negb (t4 =? NONE) && negb (t5 =? NONE) && negb (t6 =? NONE) &&
  negb (t7 =? NONE) && negb (t8 =? NONE) && negb (t9 =? NONE).

Definition is_valid10 (t1 t2 t3 t4 t5 t6 t7 t8 t9 t10 : Z) : bool :=
  negb (t1 =? NONE) && negb (t2 =? NONE) && negb (t3 =? NONE) &&
  negb (t4 =? NONE) && negb (t5 =? NONE) && negb (t6 =? NONE) &&
  negb (t7 =? NONE) && negb (t8 =? NONE) && negb (t9 =? NONE) &&
  negb (t10 =? NONE).

(** [template <class T> bool is_valid(T* const tArray, int len)].

    The loop [for (int i = 0; i < len; ++i)] is unrolled over the number of
    iterations still to run; [i] is the loop counter. Reading [tArray[i]]
    past the end of the array is undefined in C++ and is [None] here. *)
Fixpoint is_valid_loop (tArray : list Z) (i : nat) (todo : nat) : option bool :=
  match todo with
  | O => Some true
  | S todo' =>
      match tArray !! i with
      | None => None
      | Some t =>
          if t =? NONE then Some false
          else is_valid_loop tArray (S i) todo'
      end
  end.

Definition is_valid_array (tArray : list Z) (len : Z) : option bool :=
  is_valid_loop tArray 0 (Z.to_nat len).

End Vme.

(** ** utils/Bits.hxx: the bit masks *)

Module Bits.

(** Modelled from the spec: the macros [READ1], [READ3], [READ5], [READ8],
    [READ12] and [READ24] of [utils/Bits.hxx], which is not among the
    sources. The specification reads the fields they select as 1, 3, 5, 8,
    12 and 24 bits wide, so [READn] is the mask of the [n] low bits. *)
Definition READ1 : Z := 0x1.
Definition READ3 : Z := 0x7.
Definition READ5 : Z := 0x1f.
Definition READ8 : Z := 0xff.
Definition READ12 : Z := 0xfff.
Definition READ24 : Z := 0xffffff.

(** Narrowing conversion to [uint16_t]. *)
Definition to_uint16 (x : Z) : Z := x mod 2 ^ 16.

End Bits.

(** ** vme/caen/Adc.cxx: decoding of CAEN ADC output buffers *)

Module Caen.
Import Bits.

(** The module record [vme::caen::Adc<32>]. Its declaration ([Adc.hxx]) is
    not among the sources; the fields are those the decoder assigns, and
    [data] is the array of [N_CH] channel values. *)
Record Adc : Type := mkAdc {
  n_present : Z;
  count : Z;
  overflow : Z;
  underflow : Z;
  data : list Z
}.

(** The template argument of [Adc<32>]. *)
Definition N_CH : nat := 32.

(** The [data] array of a record has exactly [N_CH] entries. *)
Definition wf (module : Adc) : Prop := length (data module) = N_CH.

(** [vme::reset]: every channel is set to [vme::NONE]. *)
Definition reset (module : Adc) : Adc :=
  mkAdc (n_present module) (count module) (overflow module) (underflow module)
        (foldl (fun d i => <[i := Vme.NONE]> d) (data module) (seq 0 N_CH)).

(** [std::invalid_argument], with the text given to its constructor. *)
Inductive exn : Type :=
| invalid_argument (what : string).

(** How a call on a record ends: it returns, it throws (the record is then
    as the callee left it), or it writes outside [data], which C++ leaves
    undefined. *)
Inductive outcome (A : Type) : Type :=
| Done (a : A)
| Thrown (e : exn) (module : Adc)
| OutOfBounds.
Arguments Done {A} a.
Arguments Thrown {A} e module.
Arguments OutOfBounds {A}.

(** [module.data[i] = v] *)
Definition store (module : Adc) (i : Z) (v : Z) : outcome Adc :=
  if (0 <=? i) && (i <? Z.of_nat (length (data module))) then
    Done (mkAdc (n_present module) (count module) (overflow module)
                (underflow module) (<[Z.to_nat i := v]> (data module)))
  else OutOfBounds.

Definition DATA_BITS : Z := 0x0.
Definition HEADER_BITS : Z := 0x2.
Definition FOOTER_BITS : Z := 0x4.
Definition INVALID_BITS : Z := 0x6.

(** The fields of a buffer word, as the decoder extracts them. *)
Definition adc_channel (w : Z) : Z := to_uint16 (Z.land (Z.shiftr w 16) READ5).
Definition adc_value (w : Z) : Z := Z.land (Z.shiftr w 0) READ12.
Definition adc_overflow (w : Z) : Z := Z.land (Z.shiftr w 12) READ1.
Definition adc_underflow (w : Z) : Z := Z.land (Z.shiftr w 13) READ1.
Definition adc_n_present (w : Z) : Z := Z.land (Z.shiftr w 6) READ8.
Definition adc_count (w : Z) : Z := Z.land (Z.shiftr w 0) READ24.
Definition adc_type (w : Z) : Z := Z.land (Z.shiftr w 24) READ3.

(** [void vme::caen::unpack_adc_data(uint32_t data, Adc<32>& module)] *)
Definition unpack_adc_data (w : Z) (module : Adc) : outcome Adc :=
  let ch := to_uint16 (Z.land (Z.shiftr w 16) READ5) in
  if 32 <? ch then
    Thrown (invalid_argument "Invalid channel number.") module
  else
    let module :=
      mkAdc (n_present module) (count module) (overflow module)
            (Z.land (Z.shiftr w 13) READ1) (data module) in
    let module :=
      mkAdc (n_present module) (count module) (Z.land (Z.shiftr w 12) READ1)
            (underflow module) (data module) in
    store module ch (Z.land (Z.shiftr w 0) READ12).

(** [unpack_adc_data] from its guard on, for a value [ch] of the local
    variable of that name: what the guard and the three assignments do with
    each channel number. [unpack_adc_data] runs it at the channel number it
    has extracted from the word. *)
Definition unpack_adc_data_from (ch : Z) (w : Z) (module : Adc)
  : outcome Adc :=
  if 32 <? ch then
    Thrown (invalid_argument "Invalid channel number.") module
  else
    let module :=
      mkAdc (n_present module) (count module) (overflow module)
            (Z.land (Z.shiftr w 13) READ1) (data module) in
    let module :=
      mkAdc (n_present module) (count module) (Z.land (Z.shiftr w 12) READ1)
            (underflow module) (data module) in
    store module ch (Z.land (Z.shiftr w 0) READ12).

(** [void vme::caen::unpack_adc_header(uint32_t data, Adc<32>& module)] *)
Definition unpack_adc_header (w : Z) (module : Adc) : outcome Adc :=
  Done (mkAdc (Z.land (Z.shiftr w 6) READ8) (count module) (overflow module)
              (underflow module) (data module)).

(** [void vme::caen::unpack_adc_footer(uint32_t data, Adc<32>& module)] *)
Definition unpack_adc_footer (w : Z) (module : Adc) : outcome Adc :=
  Done (mkAdc (n_present module) (Z.land (Z.shiftr w 0) READ24)
              (overflow module) (underflow module) (data module)).

(** [void vme::caen::handle_adc_invalid(uint32_t data, Adc<32>& module)]:
    reports the error and returns. *)
Definition handle_adc_invalid (w : Z) (module : Adc) : outcome Adc :=
  Done module.

Definition AdcUnpacker : Type := Z -> Adc -> outcome Adc.

(** [std::map::insert]: the pair is added unless the key is taken. *)
Definition map_insert (k : Z) (f : AdcUnpacker) (m : gmap Z AdcUnpacker)
  : gmap Z AdcUnpacker :=
  match m !! k with
  | Some _ => m
  | None => <[k := f]> m
  end.

(** The table [static AdcUnpackerMap_t unpackers] once it is filled, which
    happens on the first call of [run_adc_unpacker]. *)
Definition unpackers : gmap Z AdcUnpacker :=
  map_insert INVALID_BITS handle_adc_invalid
    (map_insert FOOTER_BITS unpack_adc_footer
      (map_insert HEADER_BITS unpack_adc_header
        (map_insert DATA_BITS unpack_adc_data ∅))).

(** [bool run_adc_unpacker(int which, uint32_t data, Adc<32>& module)] *)
Definition run_adc_unpacker (which : Z) (w : Z) (module : Adc)
  : outcome (bool * Adc) :=
  match unpackers !! which with
  | None => Done (false, module)
  | Some unpacker =>
      match unpacker w module with
      | Done module' => Done (true, module')
      | Thrown e module' => Thrown e module'
      | OutOfBounds => OutOfBounds
      end
  end.

(** [bool vme::caen::unpack_adc_buffer(void* address, const char* bank,
    Adc<32>& module)], on the word [address] points to. The [catch] clause
    turns an exception into [success = false]. *)
Definition unpack_adc_buffer (w : Z) (bank : string) (module : Adc)
  : outcome (bool * Adc) :=
  let type := Z.land (Z.shiftr w 24) READ3 in
  match run_adc_unpacker type w module with
  | Done (success, module') => Done (success, module')
  | Thrown e module' => Done (false, module')
  | OutOfBounds => OutOfBounds
  end.

(** Modelled from the spec: [dragon::MidasEvent::FindBank], which is not
    among the sources. An event exposes a named-bank lookup that returns the
    bank (here its words, one per buffer) or "not found". *)
Definition FindBank (event : gmap string (list Z)) (bank : string)
  : option (list Z) :=
  event !! bank.

(** The loop of [unpack_adc] over the buffers of the bank; [ret] is the
    local variable of that name. Modelled from the spec: [increment_void]
    ([utils/Incrvoid.hxx], not among the sources) moves [p_bank] to the next
    word of the bank, so that the loop visits every word in turn. *)
Fixpoint unpack_adc_loop (words : list Z) (bank : string) (ret : bool)
    (module : Adc) : outcome (bool * Adc) :=
  match words with
  | [] => Done (ret, module)
  | w :: words' =>
      match unpack_adc_buffer w bank module with
      | Done (success, module') =>
          unpack_adc_loop words' bank (if negb success then false else ret)
                          module'
      | Thrown e module' => Thrown e module'
      | OutOfBounds => OutOfBounds
      end
  end.

(** [bool vme::caen::unpack_adc(const dragon::MidasEvent& event,
    const char* bank, Adc<32>& module)] *)
Definition unpack_adc (event : gmap string (list Z)) (bank : string)
    (module : Adc) : outcome (bool * Adc) :=
  match FindBank event bank with
  | None => Done (false, module)
  | Some words => unpack_adc_loop words bank true module
  end.

(** The buffer types the table of [run_adc_unpacker] has a handler for. *)
Definition known_type (w : Z) : bool :=
  let t := adc_type w in
  (t =? DATA_BITS) || (t =? HEADER_BITS) || (t =? FOOTER_BITS) ||
  (t =? INVALID_BITS).

(** [vme::copy_data]: [memcpy] of the [N] channel values to [destination].
    Nothing checks that [destination] has room for them; copying past its
    end is [None]. *)
Definition copy_data (module : Adc) (destination : list Z)
  : option (list Z) :=
  if (N_CH <=? length destination)%nat && (N_CH <=? length (data module))%nat
  then Some (take N_CH (data module) ++ drop N_CH destination)
  else None.

End Caen.

(** ** utils/Functions.hxx: derived quantities guarded by validity *)

Module Utils.

(** Modelled from the spec: the constant [dragon::NO_DATA], declared
    outside the sources. It is the "no data" marker of derived values; the
    comments of [Functions.hxx] give its value ([dragon::NO_DATA == -1]). *)
Definition NO_DATA : Z := -1.

(** Modelled from the spec: [utils::is_valid] of [Valid.hxx], which is not
    among the sources: a value is valid unless it is the "no data" marker. *)
Definition is_valid (t : Z) : bool := negb (t =? NO_DATA).

(** [template <class T1, class T2> double calculate_tof(const T1& t1,
    const T2& t2)], at channel values (Samples, [int16_t]): their difference
    is taken in [int], where it does not wrap, and is an integer that
    [double] holds exactly. At other argument types (an unsigned type, which
    wraps, or [double]) this is not the function. *)
Definition calculate_tof (t1 t2 : Z) : Z :=
  if is_valid t1 && is_valid t2 then t1 - t2 else NO_DATA.

(** The loop of [calculate_sum]; [sum] is the local variable of that name,
    a [double]: it is the integer here as long as the values are integers
    and every partial sum is below [2 ^ 53] in magnitude, as on an array of
    Samples. *)
Fixpoint calculate_sum_loop (values : list Z) (sum : Z) : Z :=
  match values with
  | [] => sum
  | x :: values' =>
      calculate_sum_loop values' (if is_valid x then sum + x else sum)
  end.

(** [template <class T> double calculate_sum(T begin, T end)], on the
    values between [begin] and [end]. *)
Definition calculate_sum (values : list Z) : Z :=
  calculate_sum_loop values 0.

End Utils.

(** ** The coincidence queue ([tstamp::Queue], TStamp.hxx)

    The queue is not among the sources: everything in this module follows
    section 4.5 of the specification. *)

Module TStamp.

Inductive Subsystem : Type := Head | Tail.

Definition other (s : Subsystem) : Subsystem :=
  match s with Head => Tail | Tail => Head end.

Definition same_subsystem (a b : Subsystem) : bool :=
  match a, b with
  | Head, Head | Tail, Tail => true
  | _, _ => false
  end.

(** Modelled from the spec: a pending event is a subsystem tag, a
    timestamp, an opaque payload (here the words of the event) and the
    arrival order. *)
Record PendingEvent : Type := mkPending {
  subsystem : Subsystem;
  timestamp : Z;
  payload : list Z;
  arrival : nat
}.

(** Modelled from the spec: a coincidence is a pair of a head event and a
    tail event. *)
Record CoincidenceEvent : Type := mkCoinc {
  coinc_head : PendingEvent;
  coinc_tail : PendingEvent
}.

(** Modelled from the spec: the counters of the diagnostics sink. *)
Record Diagnostics : Type := mkDiag {
  pushed_head : nat;
  pushed_tail : nat;
  matches : nat;
  unmatched : nat;
  out_of_order : nat
}.

Definition diag_reset : Diagnostics := mkDiag 0 0 0 0 0.

(** Modelled from the spec: the queue holds the pending events in arrival
    order (oldest first), the coincidence window, the residency timeout and
    the number of events that have arrived. *)
Record Queue : Type := mkQueue {
  window : Z;
  timeout : Z;
  pending : list PendingEvent;
  arrivals : nat
}.

Definition new_queue (window timeout : Z) : Queue :=
  mkQueue window timeout [] 0.

Definition depth (q : Queue) : nat := length (pending q).

Definition distance (a b : Z) : Z := Z.abs (a - b).

(** Modelled from the spec: the candidate closest in time to [ts]; of two
    candidates equally close, the one that arrived earlier wins. The
    candidates come in arrival order, so a later one replaces [best] only
    when it is strictly closer. *)
Fixpoint closest (ts : Z) (candidates : list PendingEvent)
    (best : option PendingEvent) : option PendingEvent :=
  match candidates with
  | [] => best
  | c :: candidates' =>
      match best with
      | None => closest ts candidates' (Some c)
      | Some b =>
          if distance ts (timestamp c) <? distance ts (timestamp b)
          then closest ts candidates' (Some c)
          else closest ts candidates' (Some b)
      end
  end.

Definition of_subsystem (s : Subsystem) (e : PendingEvent) : bool :=
  same_subsystem s (subsystem e).

Definition remove_arrival (n : nat) (l : list PendingEvent)
  : list PendingEvent :=
  List.filter (fun e => negb (arrival e =? n)%nat) l.

Definition make_coinc (a b : PendingEvent) : CoincidenceEvent :=
  match subsystem a with
  | Head => mkCoinc a b
  | Tail => mkCoinc b a
  end.

Definition count_push (s : Subsystem) (d : Diagnostics) : Diagnostics :=
  match s with
  | Head => mkDiag (S (pushed_head d)) (pushed_tail d) (matches d)
                   (unmatched d) (out_of_order d)
  | Tail => mkDiag (pushed_head d) (S (pushed_tail d)) (matches d)
                   (unmatched d) (out_of_order d)
  end.

Definition count_match (d : Diagnostics) : Diagnostics :=
  mkDiag (pushed_head d) (pushed_tail d) (S (matches d)) (unmatched d)
         (out_of_order d).

Definition count_unmatched (d : Diagnostics) : Diagnostics :=
  mkDiag (pushed_head d) (pushed_tail d) (matches d) (S (unmatched d))
         (out_of_order d).

Definition count_out_of_order (d : Diagnostics) : Diagnostics :=
  mkDiag (pushed_head d) (pushed_tail d) (matches d) (unmatched d)
         (S (out_of_order d)).

(** Modelled from the spec: an arrival is out of order when its timestamp
    is older than that of the oldest pending event of its own subsystem. *)
Definition is_out_of_order (s : Subsystem) (ts : Z) (q : Queue) : bool :=
  match List.filter (of_subsystem s) (pending q) with
  | [] => false
  | oldest :: _ => ts <? timestamp oldest
  end.

(** Modelled from the spec: [push]. The event is inserted, tagged with its
    subsystem; the pending event of the other subsystem closest in time is
    looked up, and when its distance is within the window the pair leaves
    the pending storage as a coincidence and the match counter goes up.
    Otherwise the new event stays pending. An out-of-order arrival is
    counted and never rejected. *)
Definition push (s : Subsystem) (ts : Z) (pl : list Z) (q : Queue)
    (d : Diagnostics) : Queue * Diagnostics * option CoincidenceEvent :=
  let e := mkPending s ts pl (arrivals q) in
  let d := count_push s d in
  let d := if is_out_of_order s ts q then count_out_of_order d else d in
  let stored := pending q ++ [e] in
  match closest ts (List.filter (of_subsystem (other s)) (pending q)) None with
  | Some c =>
      if distance ts (timestamp c) <=? window q then
        (mkQueue (window q) (timeout q)
                 (remove_arrival (arrival e) (remove_arrival (arrival c) stored))
                 (S (arrivals q)),
         count_match d, Some (make_coinc e c))
      else
        (mkQueue (window q) (timeout q) stored (S (arrivals q)), d, None)
  | None =>
      (mkQueue (window q) (timeout q) stored (S (arrivals q)), d, None)
  end.

(** Modelled from the spec: [flush_iterative] evicts exactly the oldest
    pending event as an unmatched single and returns the resulting depth;
    on an empty queue it does nothing and returns 0. *)
Definition flush_iterative (q : Queue) (d : Diagnostics)
  : Queue * Diagnostics * option PendingEvent * nat :=
  match pending q with
  | [] => (q, d, None, 0%nat)
  | oldest :: rest =>
      (mkQueue (window q) (timeout q) rest (arrivals q),
       count_unmatched d, Some oldest, length rest)
  end.

(** [n] calls of [flush_iterative] in a row; the evicted events are
    collected in the order they leave the queue. *)
Fixpoint flush_n (n : nat) (q : Queue) (d : Diagnostics)
  : Queue * Diagnostics * list PendingEvent :=
  match n with
  | O => (q, d, [])
  | S n' =>
      match flush_iterative q d with
      | (q', d', Some e, _) =>
          let '(q'', d'', es) := flush_n n' q' d' in (q'', d'', e :: es)
      | (q', d', None, _) => flush_n n' q' d'
      end
  end.

Definition inspect {A : Type} (a : A) : {b : A | a = b} := exist _ a eq_refl.

(** Draining the queue: the caller repeats [flush_iterative] for as long
    as the depth it returns is positive. The evicted events are collected in
    the order they leave the queue. The recursion is on the depth of the
    queue, which every call that returns a positive depth has reduced. *)
Equations? drain (q : Queue) (d : Diagnostics)
  : Queue * Diagnostics * list PendingEvent by wf (depth q) lt :=
  drain q d with inspect (flush_iterative q d) := {
    | exist _ (q', d', evicted, O) _ => (q', d', option_list evicted);
    | exist _ (q', d', evicted, S n) Heq =>
        let '(q'', d'', es) := drain q' d' in
        (q'', d'', option_list evicted ++ es) }.
Proof.
  unfold flush_iterative in Heq. unfold depth.
  destruct (pending q) as [|oldest rest]; inversion Heq; subst.
  simpl. lia.
Qed.

End TStamp.

(** ** Unpack.cxx: the orchestrator [dragon::Unpacker] *)

Module Unpack.
Import TStamp.

(** Modelled from the spec: the event codes of [utils/definitions.h], which
    is not among the sources. The routing key selects one of these; any
    other tag is unrecognized. *)
Inductive EventId : Type :=
| DRAGON_HEAD_EVENT
| DRAGON_HEAD_SCALER
| DRAGON_TAIL_EVENT
| DRAGON_TAIL_SCALER
| DRAGON_COINC_EVENT
| DRAGON_TSTAMP_DIAGNOSTICS
| DRAGON_RUN_PARAMETERS
| MIDAS_BOR
| MIDAS_EOR
| UNKNOWN_EVENT (id : Z).

(** What [UnpackMidasEvent] is given: the header's event id, and the event
    data with the timestamp the [midas::Event] constructor reads from the
    timestamp bank. *)
Record MidasEvent : Type := mkMidasEvent {
  fEventId : EventId;
  fTimestamp : Z;
  fData : list Z
}.

(** The members of [dragon::Unpacker] the routing depends on. [fQueue] is
    the owning pointer to the queue, [None] when null; [fDiag] is the
    diagnostics object behind the pointer of that name. The detector
    objects ([fHead], [fTail], [fCoinc], the scalers, [fRunpar]) belong to
    classes outside the sources; a call on them leaves this state alone. *)
Record Unpacker : Type := mkUnpacker {
  fCoincWindow : Z;
  fQueue : option Queue;
  fDiag : Diagnostics;
  fUnpacked : list EventId
}.

(** How a member function ends: it returns, or it calls through the null
    [fQueue]. *)
Inductive result (A : Type) : Type :=
| Ok (a : A)
| NullDereference.
Arguments Ok {A} a.
Arguments NullDereference {A}.

Section WithQueue.

(** Constants of [Unpack.hxx], which is not among the sources. *)
Variable kCoincWindowDefault : Z.
Variable kQueueTimeDefault : Z.

(** [tstamp::Queue::Flush]: the timed flush. It runs against a wall-clock
    budget, so it is left open here: any function from the queue, the time
    and the diagnostics to the new queue, the new diagnostics and the
    events flushed as singles. *)
Variable Flush : Queue -> Z -> Diagnostics ->
                 Queue * Diagnostics * list PendingEvent.

(** [dragon::Unpacker::Unpacker(..., bool singlesMode)] *)
Definition Unpacker_new (tsdiag : Diagnostics) (singlesMode : bool)
  : Unpacker :=
  let this := mkUnpacker kCoincWindowDefault None tsdiag [] in
  if negb singlesMode then
    mkUnpacker (fCoincWindow this)
               (Some (new_queue (fCoincWindow this)
                                (kQueueTimeDefault * 10 ^ 6)))
               (fDiag this) (fUnpacked this)
  else this.

(** Modelled from the spec: [IsSinglesMode] of [Unpack.hxx]. In singles
    mode no queue is constructed, and the mode is fixed at construction. *)
Definition IsSinglesMode (u : Unpacker) : bool :=
  match fQueue u with None => true | Some _ => false end.

Definition push_back (code : EventId) (u : Unpacker) : Unpacker :=
  mkUnpacker (fCoincWindow u) (fQueue u) (fDiag u) (fUnpacked u ++ [code]).

(** [UnpackHead], [UnpackTail], [UnpackCoinc], [UnpackHeadScaler],
    [UnpackTailScaler], [UnpackRunParameters]: the detector object is
    reset, filled and calculated, and the code is recorded. *)
Definition UnpackHead (u : Unpacker) : Unpacker := push_back DRAGON_HEAD_EVENT u.
Definition UnpackTail (u : Unpacker) : Unpacker := push_back DRAGON_TAIL_EVENT u.
Definition UnpackCoinc (u : Unpacker) : Unpacker := push_back DRAGON_COINC_EVENT u.
Definition UnpackHeadScaler (u : Unpacker) : Unpacker := push_back DRAGON_HEAD_SCALER u.
Definition UnpackTailScaler (u : Unpacker) : Unpacker := push_back DRAGON_TAIL_SCALER u.
Definition UnpackRunParameters (u : Unpacker) : Unpacker :=
  push_back DRAGON_RUN_PARAMETERS u.

(** [Process(const midas::Event&)]: a single leaving the queue. *)
Definition Process (event : PendingEvent) (u : Unpacker) : Unpacker :=
  match subsystem event with
  | Head => UnpackHead u
  | Tail => UnpackTail u
  end.

(** [Process(const midas::Event&, const midas::Event&)]: a coincidence
    leaving the queue. The pair is skipped unless it has a head and a tail. *)
Definition ProcessCoinc (event1 event2 : PendingEvent) (u : Unpacker)
  : Unpacker :=
  if same_subsystem (subsystem event1) (subsystem event2) then u
  else UnpackCoinc u.

(** [Process(tstamp::Diagnostics* )] *)
Definition ProcessDiagnostics (u : Unpacker) : Unpacker :=
  push_back DRAGON_TSTAMP_DIAGNOSTICS u.

Definition set_queue (q : Queue) (d : Diagnostics) (u : Unpacker) : Unpacker :=
  mkUnpacker (fCoincWindow u) (Some q) d (fUnpacked u).

(** [void dragon::Unpacker::FlushQueue(int flushTime)] *)
Definition FlushQueue (flushTime : Z) (u : Unpacker) : result Unpacker :=
  match fQueue u with
  | None => NullDereference
  | Some q =>
      let '(q', d', singles) := Flush q flushTime (fDiag u) in
      Ok (foldl (fun u e => Process e u) (set_queue q' d' u) singles)
  end.

(** [size_t dragon::Unpacker::FlushQueueIterative()] *)
Definition FlushQueueIterative (u : Unpacker) : result (Unpacker * nat) :=
  match fQueue u with
  | None => NullDereference
  | Some q =>
      let '(q', d', single, size) := flush_iterative q (fDiag u) in
      Ok (foldl (fun u e => Process e u) (set_queue q' d' u)
                (option_list single), size)
  end.

(** [void dragon::Unpacker::HandleBor(const char* dbname)]: of the objects
    it resets, the diagnostics are part of this state. *)
Definition HandleBor (u : Unpacker) : Unpacker :=
  mkUnpacker (fCoincWindow u) (fQueue u) diag_reset (fUnpacked u).

(** [fQueue->Push(event, fDiag)] *)
Definition Push (s : Subsystem) (event : MidasEvent) (u : Unpacker)
  : result Unpacker :=
  match fQueue u with
  | None => NullDereference
  | Some q =>
      let '(q', d', coinc) := push s (fTimestamp event) (fData event) q (fDiag u) in
      let u := set_queue q' d' u in
      Ok (match coinc with
          | Some c => ProcessCoinc (coinc_head c) (coinc_tail c) u
          | None => u
          end)
  end.

(** [std::vector<int32_t> dragon::Unpacker::UnpackMidasEvent(void* header,
    char* data)] *)
Definition UnpackMidasEvent (event : MidasEvent) (u : Unpacker)
  : result (Unpacker * list EventId) :=
  let u := mkUnpacker (fCoincWindow u) (fQueue u) (fDiag u) [] in
  let r :=
    match fEventId event with
    | DRAGON_HEAD_EVENT =>
        if IsSinglesMode u then Ok (UnpackHead u) else Push Head event u
    | DRAGON_TAIL_EVENT =>
        if IsSinglesMode u then Ok (UnpackTail u) else Push Tail event u
    | DRAGON_HEAD_SCALER => Ok (UnpackHeadScaler u)
    | DRAGON_TAIL_SCALER => Ok (UnpackTailScaler u)
    | MIDAS_BOR => Ok (UnpackRunParameters u)
    | MIDAS_EOR => Ok (UnpackRunParameters u)
    | _ => Ok u
    end in
  match r with
  | Ok u' => Ok (u', fUnpacked u')
  | NullDereference => NullDereference
  end.

(** The calls a client makes on an [Unpacker] after it is constructed. *)
Inductive Call : Type :=
| CallFlushQueue (flushTime : Z)
| CallFlushQueueIterative
| CallHandleBor
| CallUnpackMidasEvent (event : MidasEvent)
| CallProcess (event : PendingEvent)
| CallProcessCoinc (event1 event2 : PendingEvent)
| CallProcessDiagnostics.

Definition call (c : Call) (u : Unpacker) : result Unpacker :=
  match c with
  | CallFlushQueue t => FlushQueue t u
  | CallFlushQueueIterative =>
      match FlushQueueIterative u with
      | Ok (u', _) => Ok u'
      | NullDereference => NullDereference
      end
  | CallHandleBor => Ok (HandleBor u)
  | CallUnpackMidasEvent event =>
      match UnpackMidasEvent event u with
      | Ok (u', _) => Ok u'
      | NullDereference => NullDereference
      end
  | CallProcess e => Ok (Process e u)
  | CallProcessCoinc e1 e2 => Ok (ProcessCoinc e1 e2 u)
  | CallProcessDiagnostics => Ok (ProcessDiagnostics u)
  end.

(** A sequence of calls, stopping at the first that faults. *)
Fixpoint calls (cs : list Call) (u : Unpacker) : result Unpacker :=
  match cs with
  | [] => Ok u
  | c :: cs' =>
      match call c u with
      | Ok u' => calls cs' u'
      | NullDereference => NullDereference
      end
  end.

End WithQueue.

End Unpack.

(** ** utils/Functions.hxx: the array utilities

    The templates of [Functions.hxx] work on any value type. Here the value
    type [T] and what the templates need of it (the validity test, the
    comparisons, the arithmetic) are parameters, so that what is proved
    holds for [double] as for the integer types. An array is a list, and an
    access outside it, which C++ leaves undefined, is [None]. *)

Module Functions.

(** [for (int i = 0; i < n; ++i) body]: [i] is the loop counter, [todo] the
    number of iterations still to run, [s] what the body changes. *)
Fixpoint for_loop {St : Type} (body : nat -> St -> option St) (i todo : nat)
    (s : St) : option St :=
  match todo with
  | O => Some s
  | S todo' =>
      match body i s with
      | None => None
      | Some s' => for_loop body (S i) todo' s'
      end
  end.

(** A value is an [int]. *)
Definition is_int (x : Z) : Prop := - 2 ^ 31 <= x < 2 ^ 31.

(** [array[i] = x] *)
Definition store_at {T : Type} (array : list T) (i : nat) (x : T)
  : option (list T) :=
  if (i <? length array)%nat then Some (<[i := x]> array) else None.

(** The loop of [index_fill], [for (int i = 0; begin != end; ++i, ++begin)
    *begin = i + offset;], over the elements from [begin] to [end]; [i] and
    [i + offset] are the ints of the source as long as they are in the range
    of [int] ([is_int]). *)
Fixpoint index_fill_from (i : Z) (range : list Z) (offset : Z) : list Z :=
  match range with
  | [] => []
  | _ :: range' => (i + offset) :: index_fill_from (i + 1) range' offset
  end.

(** [template <class T> void index_fill(T begin, T end, int offset = 0)],
    on an array of ints, with [i + offset] in the range of [int]. *)
Definition index_fill (range : list Z) (offset : Z) : list Z :=
  index_fill_from 0 range offset.

(** [template <class T> void index_fill_n(T begin, int n, int offset = 0)],
    with [i + offset] in the range of [int]. *)
Definition index_fill_n (array : list Z) (n : Z) (offset : Z)
  : option (list Z) :=
  for_loop (fun i array => store_at array i (Z.of_nat i + offset))
           0 (Z.to_nat n) array.

Section Values.

Context {T : Type}.

(** [utils::is_valid] at the type [T] ([Valid.hxx] is not among the
    sources), and the marker [dragon::NO_DATA] converted to [T]. *)
Variable valid : T -> bool.
Variable no_data : T.

(** [std::greater<T>] and [std::less<T>]. *)
Variable greater : T -> T -> bool.
Variable less : T -> T -> bool.

(** The arithmetic of [T]: [0], [+], [*] and [pow] with an [int] exponent. *)
Variable zero : T.
Variable add : T -> T -> T.
Variable mul : T -> T -> T.
Variable pow : T -> Z -> T.

(** [greater_and_valid<T>::operator()] *)
Definition greater_and_valid (lhs rhs : T) : bool :=
  if negb (valid lhs) then false
  else if negb (valid rhs) then true
  else greater lhs rhs.

(** [less_and_valid<T>::operator()] *)
Definition less_and_valid (lhs rhs : T) : bool :=
  if negb (valid lhs) then true
  else if negb (valid rhs) then false
  else less lhs rhs.

(** [template <class T> void channel_map_from_array(T* output, int numch,
    const int* const indices, const T* const input)] *)
Definition channel_map_from_array (output : list T) (numch : Z)
    (indices : list Z) (input : list T) : option (list T) :=
  for_loop
    (fun i output =>
       match indices !! i with
       | None => None
       | Some index =>
           if index <? 0 then None
           else
             match input !! Z.to_nat index with
             | None => None
             | Some x => store_at output i x
             end
       end)
    0 (Z.to_nat numch) output.

(** [template <class T, class V> void pedestal_subtract(T& value,
    const V& variables)]; [pedestal] is [variables.pedestal]. *)
Definition pedestal_subtract_value (value pedestal : T) : T :=
  if less value pedestal then no_data else value.

(** [template <class T, class L, class V> void pedestal_subtract(T* array,
    L length, const V& variables)]; [pedestal] is [variables.pedestal]. *)
Definition pedestal_subtract (array : list T) (length : Z)
    (pedestal : list T) : option (list T) :=
  for_loop
    (fun i array =>
       match array !! i, pedestal !! i with
       | Some x, Some p =>
           if less x p then store_at array i no_data else Some array
       | _, _ => None
       end)
    0 (Z.to_nat length) array.

(** [template <class T, class V> void linear_calibrate(T& value,
    const V& variables)] *)
Definition linear_calibrate_value (value offset slope : T) : T :=
  if valid value then add offset (mul value slope) else value.

(** [template <class T, class L, class V> void linear_calibrate(T* array,
    L length, const V& variables)] *)
Definition linear_calibrate (array : list T) (length : Z)
    (offset slope : list T) : option (list T) :=
  for_loop
    (fun i array =>
       match array !! i with
       | None => None
       | Some x =>
           if valid x then
             match offset !! i, slope !! i with
             | Some o, Some s => store_at array i (add o (mul x s))
             | _, _ => None
             end
           else Some array
       end)
    0 (Z.to_nat length) array.

(** [template <class T, class V> void quadratic_calibrate(T& value,
    const V& variables)] *)
Definition quadratic_calibrate_value (value offset slope slope2 : T) : T :=
  if valid value
  then add (add offset (mul value slope)) (mul (pow value 2) slope2)
  else value.

(** [template <class T, class L, class V> void quadratic_calibrate(T* array,
    L length, const V& variables)] *)
Definition quadratic_calibrate (array : list T) (length : Z)
    (offset slope slope2 : list T) : option (list T) :=
  for_loop
    (fun i array =>
       match array !! i with
       | None => None
       | Some x =>
           if valid x then
             match offset !! i, slope !! i, slope2 !! i with
             | Some o, Some s, Some s2 =>
                 store_at array i (add (add o (mul x s)) (mul (pow x 2) s2))
             | _, _, _ => None
             end
           else Some array
       end)
    0 (Z.to_nat length) array.

(** The inner loop of [polynomial_calibrate]:
    [for (int j = 0; j < order; ++j) value += coeff[j] * pow(value0, j);]
    where [coeff j] reads the coefficient of index [j]. *)
Definition polynomial_sum (order : Z) (coeff : nat -> option T) (value0 : T)
    (value : T) : option T :=
  for_loop
    (fun j value =>
       match coeff j with
       | None => None
       | Some c => Some (add value (mul c (pow value0 (Z.of_nat j))))
       end)
    0 (Z.to_nat order) value.

(** [template <class T, class V> void polynomial_calibrate(int order,
    T& value, const V& variables)]; [coeff] is [variables.coeff]. *)
Definition polynomial_calibrate_value (order : Z) (value : T)
    (coeff : list T) : option T :=
  if valid value then
    polynomial_sum order (fun j => coeff !! j) value zero
  else Some value.

(** [template <class T, class L, class V> void polynomial_calibrate(
    int order, T* array, L length, const V& variables)]; [coeff] is
    [variables.coeff], read as [coeff[j][i]]. *)
Definition polynomial_calibrate (order : Z) (array : list T) (length : Z)
    (coeff : list (list T)) : option (list T) :=
  for_loop
    (fun i array =>
       match array !! i with
       | None => None
       | Some x =>
           if valid x then
             match
               polynomial_sum order
                 (fun j => match coeff !! j with
                           | None => None
                           | Some row => row !! i
                           end)
                 x zero
             with
             | None => None
             | Some y => store_at array i y
             end
           else Some array
       end)
    0 (Z.to_nat length) array.

End Values.

End Functions.

(** ** rootana/HistParser.cxx: reading a histogram definition file

    The text handling of the parser: cleaning the line just read, searching
    it for a keyword, and choosing the handler. The file stream and the
    ROOT interpreter the handlers call are outside this model. *)

Module HistParser.

(** [std::string::find(char)]: the position of the first occurrence, [None]
    for [npos]. *)
Fixpoint find_char (c : ascii) (s : string) : option nat :=
  match s with
  | EmptyString => None
  | String a s' =>
      if Ascii.eqb a c then Some 0%nat
      else match find_char c s' with
           | Some p => Some (S p)
           | None => None
           end
  end.

(** [s.substr(0, n)] *)
Fixpoint substr0 (n : nat) (s : string) : string :=
  match n, s with
  | S n', String a s' => String a (substr0 n' s')
  | _, _ => EmptyString
  end.

(** [replace_tab::operator()] *)
Definition replace_tab (c : ascii) : ascii :=
  if Ascii.eqb c "009" then " "%char else c.

(** [std::for_each(s.begin(), s.end(), f)] with [f] changing the character
    it is given. *)
Fixpoint for_each (f : ascii -> ascii) (s : string) : string :=
  match s with
  | EmptyString => EmptyString
  | String a s' => String (f a) (for_each f s')
  end.

(** [HistParser::read_line], from the line [std::getline] has stored in
    [fLine]: the new [fLine] and [fLineNumber]. The value returned,
    [is_good()], is a state of the file stream. *)
Definition read_line (fLine : string) (fLineNumber : nat) : string * nat :=
  let fLineNumber := S fLineNumber in
  let fLine :=
    match find_char "#" fLine with
    | Some ppos =>
        if (ppos <? String.length fLine)%nat then substr0 ppos fLine
        else fLine
    | None => fLine
    end in
  let fLine := for_each replace_tab fLine in
  (fLine, fLineNumber).

(** [std::string::find(const char* )]: the position of the first occurrence
    of [arg], [None] for [npos]. *)
Fixpoint find (arg s : string) : option nat :=
  if String.prefix arg s then Some 0%nat
  else match s with
       | EmptyString => None
       | String _ s' =>
           match find arg s' with
           | Some p => Some (S p)
           | None => None
           end
       end.

(** [bool contains(const std::string& s, const char* arg)] *)
Definition contains (s arg : string) : bool :=
  match find arg s with
  | Some p => (p <? String.length s)%nat
  | None => false
  end.

(** [Int_t get_type(const std::string& spar)]; [None] is the value [-1]. *)
Definition get_type (spar : string) : option Unpack.EventId :=
  if contains spar "rootana::gHead" then Some Unpack.DRAGON_HEAD_EVENT
  else if contains spar "rootana::gTail" then Some Unpack.DRAGON_TAIL_EVENT
  else if contains spar "rootana::gCoinc" then Some Unpack.DRAGON_COINC_EVENT
  else None.

(** What the loop of [HistParser::run] does with a line. *)
Inductive Handler : Type :=
| handle_dir
| handle_cut
| handle_hist (type : string)
| handle_summary
| skip.

(** The chain of tests in the loop of [HistParser::run]. *)
Definition run_line (fLine : string) : Handler :=
  if contains fLine "DIR:" then handle_dir
  else if contains fLine "CUT:" then handle_cut
  else if contains fLine "TH1D:" then handle_hist "TH1D"
  else if contains fLine "TH2D:" then handle_hist "TH2D"
  else if contains fLine "TH3D:" then handle_hist "TH3D"
  else if contains fLine "SUMMARY:" then handle_summary
  else skip.

(** [int npar = atoi(std::string(type).substr(2,1).c_str())] in
    [handle_hist]. [substr(2,1)] throws when [type] has fewer than two
    characters, which is [None]; [atoi] of the one character at index 2
    is its value when it is a digit and 0 otherwise, also when there is no
    character there. *)
Definition npar (type : string) : option Z :=
  if (String.length type <? 2)%nat then None
  else
    match String.get 2 type with
    | Some c =>
        let n := Z.of_nat (nat_of_ascii c) - 48 in
        Some (if (0 <=? n) && (n <=? 9) then n else 0)
    | None => Some 0
    end.

End HistParser.

(** * Properties *)

(** ** The validity domain *)

Module VmeTheorems.
Import Vme.

Lemma is_valid_false_iff (x : Z) : is_valid x = false <-> x = NONE.
Proof.
  unfold is_valid. rewrite negb_false_iff. apply Z.eqb_eq.
Qed.

Lemma is_valid_true_iff (x : Z) : is_valid x = true <-> x <> NONE.
Proof.
  unfold is_valid. rewrite negb_true_iff. apply Z.eqb_neq.
Qed.

(** The loop, started at index [length done] of [done ++ todo] with as many
    iterations as [todo] has elements, stays inside the array and computes
    the conjunction over [todo]. *)
Lemma is_valid_loop_app (done todo : list Z) :
  is_valid_loop (done ++ todo) (length done) (length todo)
  = Some (forallb is_valid todo).
Proof.
  revert done. induction todo as [|t todo IH]; intros done; simpl.
  - reflexivity.
  - rewrite lookup_app_r by lia. rewrite Nat.sub_diag. simpl.
    unfold is_valid at 1. destruct (t =? NONE) eqn:Ht; simpl.
    + reflexivity.
    + specialize (IH (done ++ [t])).
      rewrite <- app_assoc in IH. simpl in IH.
      rewrite length_app in IH. simpl in IH.
      rewrite Nat.add_1_r in IH. exact IH.
Qed.

Lemma is_valid_array_forallb (tArray : list Z) :
  is_valid_array tArray (Z.of_nat (length tArray))
  = Some (forallb is_valid tArray).
Proof.
  unfold is_valid_array. rewrite Nat2Z.id.
  exact (is_valid_loop_app [] tArray).
Qed.

(** C7. [is_valid x] is false exactly when [x] is [NONE]; each overload for
    two to ten values is the conjunction of the one-argument validity of its
    arguments; and the array form, run over the whole of an array, returns
    (without reading outside it) true exactly when every element is valid. *)
Theorem is_valid_contract :
  (forall x : Z, is_valid x = false <-> x = NONE) /\
  (forall t1 t2, is_valid2 t1 t2 = is_valid t1 && is_valid t2) /\
  (forall t1 t2 t3,
      is_valid3 t1 t2 t3 = is_valid t1 && is_valid t2 && is_valid t3) /\
  (forall t1 t2 t3 t4,
      is_valid4 t1 t2 t3 t4
      = is_valid t1 && is_valid t2 && is_valid t3 && is_valid t4) /\
  (forall t1 t2 t3 t4 t5,
      is_valid5 t1 t2 t3 t4 t5
      = is_valid t1 && is_valid t2 && is_valid t3 && is_valid t4 &&
        is_valid t5) /\
  (forall t1 t2 t3 t4 t5 t6,
      is_valid6 t1 t2 t3 t4 t5 t6
      = is_valid t1 && is_valid t2 && is_valid t3 && is_valid t4 &&
        is_valid t5 && is_valid t6) /\
  (forall t1 t2 t3 t4 t5 t6 t7,
      is_valid7 t1 t2 t3 t4 t5 t6 t7
      = is_valid t1 && is_valid t2 && is_valid t3 && is_valid t4 &&
        is_valid t5 && is_valid t6 && is_valid t7) /\
  (forall t1 t2 t3 t4 t5 t6 t7 t8,
      is_valid8 t1 t2 t3 t4 t5 t6 t7 t8
      = is_valid t1 && is_valid t2 && is_valid t3 && is_valid t4 &&
        is_valid t5 && is_valid t6 && is_valid t7 && is_valid t8) /\
  (forall t1 t2 t3 t4 t5 t6 t7 t8 t9,
      is_valid9 t1 t2 t3 t4 t5 t6 t7 t8 t9
      = is_valid t1 && is_valid t2 && is_valid t3 && is_valid t4 &&
        is_valid t5 && is_valid t6 && is_valid t7 && is_valid t8 &&
        is_valid t9) /\
  (forall t1 t2 t3 t4 t5 t6 t7 t8 t9 t10,
      is_valid10 t1 t2 t3 t4 t5 t6 t7 t8 t9 t10
      = is_valid t1 && is_valid t2 && is_valid t3 && is_valid t4 &&
        is_valid t5 && is_valid t6 && is_valid t7 && is_valid t8 &&
        is_valid t9 && is_valid t10) /\
  (forall tArray : list Z,
      exists b, is_valid_array tArray (Z.of_nat (length tArray)) = Some b /\
                (b = true <->
                 forall i x, tArray !! i = Some x -> is_valid x = true)).
Proof.
  split; [exact is_valid_false_iff|].
  repeat (split; [reflexivity|]).
  intros tArray. exists (forallb is_valid tArray).
  split; [apply is_valid_array_forallb|].
  rewrite forallb_forall. split.
  - intros H i x Hi. apply H. apply list_elem_of_In.
    eapply list_elem_of_lookup_2; eassumption.
  - intros H x Hx. apply list_elem_of_In in Hx.
    apply list_elem_of_lookup_1 in Hx as [i Hi]. eapply H; eassumption.
Qed.

(** The array of the example in [Functions.hxx], and a pair holding the
    sentinel. *)
Example is_valid_array_example :
  is_valid_array [300; 200; 100; 1; 0; -1] 6 = Some false /\
  is_valid_array [300; 200; 100; 1; 0] 5 = Some true /\
  is_valid2 7 NONE = false.
Proof. repeat split. Qed.

End VmeTheorems.

(** ** Derived quantities *)

Module UtilsTheorems.
Import Utils.

Lemma calculate_sum_loop_filter (values : list Z) (sum : Z) :
  calculate_sum_loop values sum
  = sum + foldr Z.add 0 (List.filter is_valid values).
Proof.
  revert sum. induction values as [|x values IH]; intros sum; simpl.
  - lia.
  - rewrite IH. destruct (is_valid x); simpl; lia.
Qed.

Lemma calculate_sum_filter (values : list Z) :
  calculate_sum values = foldr Z.add 0 (List.filter is_valid values).
Proof.
  unfold calculate_sum. rewrite calculate_sum_loop_filter. lia.
Qed.

(** C6, as the claim has it, fails on [calculate_sum]: the array of the
    example in [Functions.hxx] holds the sentinel, and its sum is 601, not
    the "no data" marker. *)
Lemma calculate_sum_none_counterexample :
  In Vme.NONE [300; 200; 100; 1; 0; -1] /\
  calculate_sum [300; 200; 100; 1; 0; -1] = 601 /\
  calculate_sum [300; 200; 100; 1; 0; -1] <> NO_DATA.
Proof.
  split; [|split].
  - do 5 right. left. reflexivity.
  - reflexivity.
  - discriminate.
Qed.

(** C6, amended. [calculate_tof] returns the "no data" marker when either
    argument is the sentinel, and the difference otherwise; [calculate_sum]
    never adds a sentinel: it returns the sum of the valid entries, so an
    entry equal to the sentinel can be dropped from the array without
    changing the result. *)
Theorem derivations_guard_none :
  (forall t1 t2 : Z,
      t1 = Vme.NONE \/ t2 = Vme.NONE -> calculate_tof t1 t2 = NO_DATA) /\
  (forall t1 t2 : Z,
      t1 <> Vme.NONE -> t2 <> Vme.NONE -> calculate_tof t1 t2 = t1 - t2) /\
  (forall values : list Z,
      calculate_sum values
      = foldr Z.add 0 (List.filter (fun x => negb (x =? Vme.NONE)) values)) /\
  (forall before after : list Z,
      calculate_sum (before ++ Vme.NONE :: after)
      = calculate_sum (before ++ after)).
Proof.
  split; [|split; [|split]].
  - intros t1 t2 [-> | ->]; unfold calculate_tof; simpl.
    + reflexivity.
    + destruct (is_valid t1); reflexivity.
  - intros t1 t2 H1 H2. unfold calculate_tof, is_valid.
    apply Z.eqb_neq in H1, H2.
    change NO_DATA with Vme.NONE. rewrite H1, H2. reflexivity.
  - intros values. apply calculate_sum_filter.
  - intros before after. rewrite !calculate_sum_filter.
    rewrite !List.filter_app. simpl. reflexivity.
Qed.

Lemma derivations_guard_none_witness :
  calculate_tof 1200 Vme.NONE = NO_DATA /\
  calculate_tof 1200 200 = 1000 /\
  calculate_sum ([300; 200] ++ Vme.NONE :: [1]) = calculate_sum ([300; 200] ++ [1]).
Proof.
  destruct derivations_guard_none as (Hnone & Hvalid & _ & Hdrop).
  split; [|split].
  - apply Hnone. right. reflexivity.
  - apply (Hvalid 1200 200); discriminate.
  - apply (Hdrop [300; 200] [1]).
Defined.

End UtilsTheorems.

(** ** The ADC decoder *)

Module CaenTheorems.
Import Bits Caen.

(** A mask of [n] low bits leaves a value below [2 ^ n]. *)
Lemma land_ones_bounds (x n : Z) :
  0 <= n -> 0 <= Z.land x (Z.ones n) < 2 ^ n.
Proof.
  intros Hn. rewrite Z.land_ones by assumption.
  apply Z.mod_pos_bound. apply Z.pow_pos_nonneg; lia.
Qed.

Lemma adc_channel_bounds (w : Z) : 0 <= adc_channel w <= 31.
Proof.
  unfold adc_channel, to_uint16.
  pose proof (land_ones_bounds (Z.shiftr w 16) 5 ltac:(lia)) as H.
  change (Z.ones 5) with READ5 in H. change (2 ^ 5) with 32 in H.
  rewrite Z.mod_small; lia.
Qed.

Lemma adc_type_bounds (w : Z) : 0 <= adc_type w <= 7.
Proof.
  unfold adc_type.
  pose proof (land_ones_bounds (Z.shiftr w 24) 3 ltac:(lia)) as H.
  change (Z.ones 3) with READ3 in H. change (2 ^ 3) with 8 in H. lia.
Qed.

Lemma adc_value_bounds (w : Z) : 0 <= adc_value w <= 4095.
Proof.
  unfold adc_value.
  pose proof (land_ones_bounds (Z.shiftr w 0) 12 ltac:(lia)) as H.
  change (Z.ones 12) with READ12 in H. change (2 ^ 12) with 4096 in H. lia.
Qed.

(** The guard of [unpack_adc_data] is never taken. *)
Lemma adc_guard_false (w : Z) : (32 <? adc_channel w) = false.
Proof.
  apply Z.ltb_ge. pose proof (adc_channel_bounds w). lia.
Qed.

(** What [unpack_adc_data] does to a record with all its channels. *)
Lemma unpack_adc_data_done (w : Z) (module : Adc) :
  wf module ->
  unpack_adc_data w module
  = Done (mkAdc (n_present module) (count module) (adc_overflow w)
                (adc_underflow w)
                (<[Z.to_nat (adc_channel w) := adc_value w]> (data module))).
Proof.
  intros Hwf. unfold unpack_adc_data.
  fold (adc_channel w). rewrite adc_guard_false.
  unfold store. cbn [data n_present count overflow underflow]. rewrite Hwf.
  pose proof (adc_channel_bounds w) as Hch.
  replace (0 <=? adc_channel w) with true by (symmetry; apply Z.leb_le; lia).
  replace (adc_channel w <? Z.of_nat N_CH) with true
    by (symmetry; apply Z.ltb_lt; unfold N_CH; lia).
  reflexivity.
Qed.

Lemma unpack_adc_data_not_thrown (w : Z) (module : Adc) e module' :
  unpack_adc_data w module <> Thrown e module'.
Proof.
  unfold unpack_adc_data. fold (adc_channel w). rewrite adc_guard_false.
  unfold store. cbn [data].
  destruct (_ && _); discriminate.
Qed.

(** [unpack_adc_data] is its body run at the channel number of the word. *)
Lemma unpack_adc_data_from_channel (w : Z) (module : Adc) :
  unpack_adc_data w module = unpack_adc_data_from (adc_channel w) w module.
Proof. reflexivity. Qed.




(** C10. The channel id [unpack_adc_data] extracts is bits 16 to 20 of the
    word and so at most 31; the guard [32 < ch] is false for every word, the
    call never throws, and on a record with all its channels it returns
    with [data[ch]] and the two flags written. *)
Theorem unpack_adc_data_total (w : Z) (module : Adc) :
  adc_channel w = (w / 2 ^ 16) mod 2 ^ 5 /\
  0 <= adc_channel w <= 31 /\
  (32 <? adc_channel w) = false /\
  (forall e module', unpack_adc_data w module <> Thrown e module') /\
  (wf module ->
   unpack_adc_data w module
   = Done (mkAdc (n_present module) (count module) (adc_overflow w)
                 (adc_underflow w)
                 (<[Z.to_nat (adc_channel w) := adc_value w]> (data module)))).
Proof.
  split; [|split; [|split; [|split]]].
  - unfold adc_channel, to_uint16. change READ5 with (Z.ones 5).
    rewrite Z.land_ones by lia. rewrite Z.shiftr_div_pow2 by lia.
    apply Z.mod_small.
    pose proof (Z.mod_pos_bound (w / 2 ^ 16) (2 ^ 5) ltac:(lia)). lia.
  - apply adc_channel_bounds.
  - apply adc_guard_false.
  - intros e module'. apply unpack_adc_data_not_thrown.
  - apply unpack_adc_data_done.
Qed.

Lemma unpack_adc_data_total_witness :
  let module := reset (mkAdc 0 0 0 0 (replicate 32 0)) in
  unpack_adc_data 0xffffffff module
  = Done (mkAdc 0 0 1 1 (<[31%nat := 0xfff]> (data module))).
Proof.
  intros module.
  destruct (unpack_adc_data_total 0xffffffff module) as (_ & _ & _ & _ & H).
  rewrite H by reflexivity. reflexivity.
Defined.

End CaenTheorems.

(** ** Unpacking a bank *)

Module BankTheorems.
Import Bits Caen CaenTheorems.

(** Inserting under a key that is free. *)
Lemma map_insert_fresh (k : Z) (f : AdcUnpacker) (m : gmap Z AdcUnpacker) :
  m !! k = None -> map_insert k f m = <[k := f]> m.
Proof. intros H. unfold map_insert. rewrite H. reflexivity. Qed.

(** The table holds the four handlers under their codes and nothing else. *)
Lemma unpackers_lookup (which : Z) :
  unpackers !! which
  = if which =? INVALID_BITS then Some handle_adc_invalid
    else if which =? FOOTER_BITS then Some unpack_adc_footer
    else if which =? HEADER_BITS then Some unpack_adc_header
    else if which =? DATA_BITS then Some unpack_adc_data
    else None.
Proof.
  assert (Htable : unpackers
          = <[INVALID_BITS := handle_adc_invalid]>
              (<[FOOTER_BITS := unpack_adc_footer]>
                (<[HEADER_BITS := unpack_adc_header]>
                  (<[DATA_BITS := unpack_adc_data]> ∅)))).
  { unfold unpackers.
    rewrite (map_insert_fresh DATA_BITS) by apply lookup_empty.
    rewrite (map_insert_fresh HEADER_BITS)
      by (rewrite lookup_insert_ne by discriminate; apply lookup_empty).
    rewrite (map_insert_fresh FOOTER_BITS)
      by (rewrite !lookup_insert_ne by discriminate; apply lookup_empty).
    rewrite (map_insert_fresh INVALID_BITS)
      by (rewrite !lookup_insert_ne by discriminate; apply lookup_empty).
    reflexivity. }
  rewrite Htable.
  destruct (Z.eqb_spec which INVALID_BITS) as [->|H6];
    [apply lookup_insert_eq|rewrite lookup_insert_ne by congruence].
  destruct (Z.eqb_spec which FOOTER_BITS) as [->|H4];
    [apply lookup_insert_eq|rewrite lookup_insert_ne by congruence].
  destruct (Z.eqb_spec which HEADER_BITS) as [->|H2];
    [apply lookup_insert_eq|rewrite lookup_insert_ne by congruence].
  destruct (Z.eqb_spec which DATA_BITS) as [->|H0];
    [apply lookup_insert_eq|rewrite lookup_insert_ne by congruence].
  apply lookup_empty.
Qed.

(** One buffer word, decoded into a record with all its channels: the call
    returns, its result tells whether the table has the type of the word,
    and the header and footer fields change only on a word of their type. *)
Lemma unpack_adc_buffer_spec (w : Z) (bank : string) (module : Adc) :
  wf module ->
  exists module',
    unpack_adc_buffer w bank module = Done (known_type w, module') /\
    wf module' /\
    n_present module'
    = (if adc_type w =? HEADER_BITS then adc_n_present w else n_present module) /\
    count module'
    = (if adc_type w =? FOOTER_BITS then adc_count w else count module) /\
    (known_type w = false \/ adc_type w = INVALID_BITS -> module' = module).
Proof.
  intros Hwf. unfold unpack_adc_buffer, run_adc_unpacker, known_type.
  fold (adc_type w). rewrite unpackers_lookup.
  destruct (Z.eqb_spec (adc_type w) INVALID_BITS) as [E6|N6].
  { rewrite E6. exists module. simpl. repeat split; auto. }
  destruct (Z.eqb_spec (adc_type w) FOOTER_BITS) as [E4|N4].
  { rewrite E4. unfold unpack_adc_footer. eexists.
    cbn [n_present count data orb]. repeat split; auto.
    intros [H|H]; [discriminate | rewrite H in E4; discriminate]. }
  destruct (Z.eqb_spec (adc_type w) HEADER_BITS) as [E2|N2].
  { rewrite E2. unfold unpack_adc_header. eexists.
    cbn [n_present count data orb]. repeat split; auto.
    intros [H|H]; [discriminate | rewrite H in E2; discriminate]. }
  destruct (Z.eqb_spec (adc_type w) DATA_BITS) as [E0|N0].
  { rewrite E0. rewrite unpack_adc_data_done by assumption.
    eexists. cbn [n_present count data orb]. repeat split; auto.
    - unfold wf. cbn [data]. rewrite length_insert. exact Hwf.
    - intros [H|H]; [discriminate | rewrite H in E0; discriminate]. }
  exists module. simpl. repeat split; auto.
Qed.

(** The loop over a bank returns; [ret] stays true exactly when the table
    has the type of every word. *)
Lemma unpack_adc_loop_spec (words : list Z) (bank : string) (ret : bool)
    (module : Adc) :
  wf module ->
  exists module',
    unpack_adc_loop words bank ret module
    = Done (ret && forallb known_type words, module') /\
    wf module'.
Proof.
  revert ret module. induction words as [|w words IH]; intros ret module Hwf.
  - exists module. simpl. rewrite andb_true_r. split; [reflexivity|assumption].
  - destruct (unpack_adc_buffer_spec w bank module Hwf)
      as (m1 & Hbuf & Hwf1 & _).
    cbn [unpack_adc_loop]. rewrite Hbuf.
    destruct (IH (if negb (known_type w) then false else ret) m1 Hwf1)
      as (m2 & Hloop & Hwf2).
    exists m2. rewrite Hloop. split; [|assumption].
    f_equal. f_equal. cbn [forallb].
    destruct (known_type w), ret; reflexivity.
Qed.

(** The record the loop leaves does not depend on [ret]. *)
Lemma unpack_adc_loop_ret (words : list Z) (bank : string) (ret ret' : bool)
    (module : Adc) (r : bool) (module' : Adc) :
  unpack_adc_loop words bank ret module = Done (r, module') ->
  exists r', unpack_adc_loop words bank ret' module = Done (r', module').
Proof.
  revert ret ret' module. induction words as [|w words IH];
    intros ret ret' module; cbn [unpack_adc_loop].
  - intros [= _ <-]. eexists. reflexivity.
  - destruct (unpack_adc_buffer w bank module) as [[s m1]| |]; try discriminate.
    apply IH.
Qed.

(** Scanning [before ++ after] is scanning [before] and then [after] from
    the result and the record [before] left. *)
Lemma unpack_adc_loop_app (before after : list Z) (bank : string)
    (ret : bool) (module : Adc) :
  unpack_adc_loop (before ++ after) bank ret module
  = match unpack_adc_loop before bank ret module with
    | Done (r, module') => unpack_adc_loop after bank r module'
    | Thrown e module' => Thrown e module'
    | OutOfBounds => OutOfBounds
    end.
Proof.
  revert ret module. induction before as [|w before IH]; intros ret module.
  - reflexivity.
  - cbn [unpack_adc_loop app].
    destruct (unpack_adc_buffer w bank module) as [[s m1]| |];
      [apply IH|reflexivity|reflexivity].
Qed.

(** A field that only the words of one type assign: what a scan leaves in
    it. The two instances are [n_present] with the HEADER words and [count]
    with the FOOTER words. *)
Section FieldOfOneType.

Variable field : Adc -> Z.
Variable type : Z.
Variable value : Z -> Z.
Hypothesis buffer_field :
  forall (w : Z) (bank : string) (module : Adc),
    wf module ->
    exists module',
      unpack_adc_buffer w bank module = Done (known_type w, module') /\
      wf module' /\
      field module' = (if adc_type w =? type then value w else field module).

(** No word of the type: the field is as it was. *)
Lemma scan_keeps_field (words : list Z) (bank : string) (ret r : bool)
    (module module' : Adc) :
  wf module ->
  (forall w, w ∈ words -> adc_type w <> type) ->
  unpack_adc_loop words bank ret module = Done (r, module') ->
  field module' = field module.
Proof.
  revert ret module. induction words as [|w words IH];
    intros ret module Hwf Hnone; cbn [unpack_adc_loop].
  - intros [= _ <-]. reflexivity.
  - destruct (buffer_field w bank module Hwf) as (m1 & -> & Hwf1 & Hf).
    intros Hloop.
    rewrite (IH _ m1 Hwf1 ltac:(intros; apply Hnone; right; assumption) Hloop).
    rewrite Hf.
    destruct (Z.eqb_spec (adc_type w) type) as [E|_]; [|reflexivity].
    exfalso. apply (Hnone w); [left|exact E].
Qed.

(** The words of the type are all the word [h], and [h] occurs: the field
    ends up holding the value of [h]. *)
Lemma scan_sets_field (words : list Z) (bank : string) (ret r : bool)
    (module module' : Adc) (h : Z) :
  wf module ->
  h ∈ words ->
  adc_type h = type ->
  (forall w, w ∈ words -> adc_type w = type -> w = h) ->
  unpack_adc_loop words bank ret module = Done (r, module') ->
  field module' = value h.
Proof.
  revert ret module. induction words as [|w words IH];
    intros ret module Hwf Hin Hh Honly; cbn [unpack_adc_loop].
  - inversion Hin.
  - destruct (buffer_field w bank module Hwf) as (m1 & -> & Hwf1 & Hf).
    intros Hloop.
    assert (Honly' : forall w', w' ∈ words -> adc_type w' = type -> w' = h)
      by (intros w' Hw'; apply Honly; right; assumption).
    destruct (decide (h ∈ words)) as [Hin'|Hnotin].
    + exact (IH _ m1 Hwf1 Hin' Hh Honly' Hloop).
    + apply elem_of_cons in Hin as [->|Hin]; [|contradiction].
      assert (Hnone : forall w', w' ∈ words -> adc_type w' <> type).
      { intros w' Hw' Ht. apply Hnotin. rewrite <- (Honly' w' Hw' Ht).
        exact Hw'. }
      rewrite (scan_keeps_field _ _ _ _ _ _ Hwf1 Hnone Hloop), Hf.
      apply Z.eqb_eq in Hh. rewrite Hh. reflexivity.
Qed.

End FieldOfOneType.

Lemma buffer_n_present (w : Z) (bank : string) (module : Adc) :
  wf module ->
  exists module',
    unpack_adc_buffer w bank module = Done (known_type w, module') /\
    wf module' /\
    n_present module'
    = (if adc_type w =? HEADER_BITS then adc_n_present w else n_present module).
Proof.
  intros Hwf.
  destruct (unpack_adc_buffer_spec w bank module Hwf) as (m & H1 & H2 & H3 & _).
  exists m. auto.
Qed.

Lemma buffer_count (w : Z) (bank : string) (module : Adc) :
  wf module ->
  exists module',
    unpack_adc_buffer w bank module = Done (known_type w, module') /\
    wf module' /\
    count module'
    = (if adc_type w =? FOOTER_BITS then adc_count w else count module).
Proof.
  intros Hwf.
  destruct (unpack_adc_buffer_spec w bank module Hwf)
    as (m & H1 & H2 & _ & H4 & _).
  exists m. auto.
Qed.

Lemma known_type_iff (w : Z) :
  known_type w = true <->
  adc_type w = DATA_BITS \/ adc_type w = HEADER_BITS \/
  adc_type w = FOOTER_BITS \/ adc_type w = INVALID_BITS.
Proof.
  unfold known_type. rewrite !orb_true_iff, !Z.eqb_eq. tauto.
Qed.

(** C4, as the claim has it, fails on a word with the INVALID tag: the
    table has a handler for it, so the bank made of that one word unpacks
    with overall success. *)
Lemma invalid_word_counterexample :
  let module := reset (mkAdc 0 0 0 0 (replicate 32 0)) in
  let event : gmap string (list Z) := {[ "VADC" := [0x06000000] ]} in
  adc_type 0x06000000 = INVALID_BITS /\
  unpack_adc event "VADC" module = Done (true, module).
Proof.
  split; vm_compute; reflexivity.
Qed.

(** C4, amended. Unpacking a bank that is present returns, and the overall
    success is true exactly when the type of every word is one of the four
    codes of the handler table: DATA, HEADER, FOOTER and INVALID. A word
    with any other type makes the result false and a word with the INVALID
    type does not; either way the scan goes on: the record it leaves is the
    one the scan of the other words leaves. *)
Theorem unpack_adc_success (event : gmap string (list Z)) (bank : string)
    (words : list Z) (module : Adc) :
  wf module ->
  FindBank event bank = Some words ->
  (exists r module',
      unpack_adc event bank module = Done (r, module') /\
      (r = true <->
       forall w, w ∈ words ->
         adc_type w = DATA_BITS \/ adc_type w = HEADER_BITS \/
         adc_type w = FOOTER_BITS \/ adc_type w = INVALID_BITS)) /\
  (forall before w after,
      words = before ++ w :: after ->
      known_type w = false ->
      exists r module',
        unpack_adc_loop (before ++ after) bank true module = Done (r, module') /\
        unpack_adc event bank module = Done (false, module')) /\
  (forall before w after,
      words = before ++ w :: after ->
      adc_type w = INVALID_BITS ->
      unpack_adc event bank module
      = unpack_adc_loop (before ++ after) bank true module).
Proof.
  intros Hwf Hfind. unfold unpack_adc. rewrite Hfind.
  split; [|split].
  - destruct (unpack_adc_loop_spec words bank true module Hwf)
      as (m' & Hloop & _).
    eexists. exists m'. split; [exact Hloop|].
    cbn [andb]. rewrite forallb_forall. split.
    + intros H w Hw. apply known_type_iff. apply H.
      apply list_elem_of_In. exact Hw.
    + intros H w Hw. apply known_type_iff. apply H.
      apply list_elem_of_In. exact Hw.
  - intros before w after -> Hw.
    rewrite !unpack_adc_loop_app.
    destruct (unpack_adc_loop_spec before bank true module Hwf)
      as (m1 & -> & Hwf1).
    cbn [unpack_adc_loop].
    destruct (unpack_adc_buffer_spec w bank m1 Hwf1)
      as (m1' & -> & _ & _ & _ & Hsame).
    rewrite (Hsame (or_introl Hw)), Hw. cbn [negb].
    destruct (unpack_adc_loop_spec after bank false m1 Hwf1)
      as (m2 & Hafter & _).
    destruct (unpack_adc_loop_ret _ _ _ (true && forallb known_type before)
                _ _ _ Hafter) as (r' & Hafter').
    exists r', m2. split; [exact Hafter'|exact Hafter].
  - intros before w after -> Hw.
    rewrite !unpack_adc_loop_app.
    destruct (unpack_adc_loop_spec before bank true module Hwf)
      as (m1 & -> & Hwf1).
    cbn [unpack_adc_loop].
    destruct (unpack_adc_buffer_spec w bank m1 Hwf1)
      as (m1' & -> & _ & _ & _ & Hsame).
    rewrite (Hsame (or_intror Hw)).
    assert (Hk : known_type w = true)
      by (apply known_type_iff; tauto).
    rewrite Hk. reflexivity.
Qed.

Lemma unpack_adc_success_witness :
  let module := reset (mkAdc 0 0 0 0 (replicate 32 0)) in
  let event : gmap string (list Z) :=
    {[ "VADC" := [0x02000440; 0x01000000; 0x00051abc] ]} in
  exists r module',
    unpack_adc_loop ([0x02000440] ++ [0x00051abc]) "VADC" true module
    = Done (r, module') /\
    unpack_adc event "VADC" module = Done (false, module').
Proof.
  intros module event.
  assert (Hwf : wf module) by reflexivity.
  assert (Hfind : FindBank event "VADC"
                  = Some [0x02000440; 0x01000000; 0x00051abc])
    by (vm_compute; reflexivity).
  destruct (unpack_adc_success event "VADC" _ module Hwf Hfind)
    as (_ & Hunknown & _).
  apply (Hunknown [0x02000440] 0x01000000 [0x00051abc]); reflexivity.
Defined.

(** C5, as the claim has it, fails: an event without the bank and an event
    whose bank holds a word of unknown type give the caller the same
    result. *)
Lemma bank_not_found_counterexample :
  let module := reset (mkAdc 0 0 0 0 (replicate 32 0)) in
  let absent : gmap string (list Z) := ∅ in
  let failing : gmap string (list Z) := {[ "VADC" := [0x01000000] ]} in
  FindBank absent "VADC" = None /\
  FindBank failing "VADC" = Some [0x01000000] /\
  forallb known_type [0x01000000] = false /\
  unpack_adc absent "VADC" module = unpack_adc failing "VADC" module.
Proof.
  repeat split; vm_compute; reflexivity.
Qed.

(** C5, amended. When the named bank is absent, [unpack_adc] returns false
    and leaves the record alone; when the bank is present and a word of it
    fails to decode, [unpack_adc] returns false as well: the value returned
    is the same in the two cases. *)
Theorem unpack_adc_not_found (event : gmap string (list Z)) (bank : string)
    (module : Adc) :
  (FindBank event bank = None ->
   unpack_adc event bank module = Done (false, module)) /\
  (forall words,
      wf module ->
      FindBank event bank = Some words ->
      forallb known_type words = false ->
      exists module', unpack_adc event bank module = Done (false, module')).
Proof.
  unfold unpack_adc. split.
  - intros ->. reflexivity.
  - intros words Hwf -> Hfail.
    destruct (unpack_adc_loop_spec words bank true module Hwf)
      as (m' & Hloop & _).
    exists m'. rewrite Hloop, Hfail. reflexivity.
Qed.

Lemma unpack_adc_not_found_witness :
  let module := reset (mkAdc 0 0 0 0 (replicate 32 0)) in
  unpack_adc ∅ "VADC" module = Done (false, module) /\
  exists module',
    unpack_adc {[ "VADC" := [0x03000000; 0x00051abc] ]} "VADC" module
    = Done (false, module').
Proof.
  intros module. split.
  - apply (unpack_adc_not_found ∅ "VADC" module). reflexivity.
  - apply (proj2 (unpack_adc_not_found
                    {[ "VADC" := [0x03000000; 0x00051abc] ]} "VADC" module)
             [0x03000000; 0x00051abc]); vm_compute; reflexivity.
Defined.

(** C8. A bank made of one HEADER word, one FOOTER word and any number of
    DATA words, in any order: unpacking it succeeds and leaves in
    [n_present] the 8-bit field of the HEADER word and in [count] the
    24-bit counter of the FOOTER word, whatever the DATA words are, however
    many there are and wherever they stand. *)
Theorem header_footer_independent (event : gmap string (list Z))
    (bank : string) (words : list Z) (header footer : Z) (datas : list Z)
    (module : Adc) :
  wf module ->
  FindBank event bank = Some words ->
  words ≡ₚ header :: footer :: datas ->
  adc_type header = HEADER_BITS ->
  adc_type footer = FOOTER_BITS ->
  (forall d, d ∈ datas -> adc_type d = DATA_BITS) ->
  exists module',
    unpack_adc event bank module = Done (true, module') /\
    n_present module' = adc_n_present header /\
    n_present module' = (header / 2 ^ 6) mod 2 ^ 8 /\
    count module' = adc_count footer /\
    count module' = footer mod 2 ^ 24.
Proof.
  intros Hwf Hfind Hperm Hh Hf Hd.
  unfold unpack_adc. rewrite Hfind.
  destruct (unpack_adc_loop_spec words bank true module Hwf)
    as (m' & Hloop & _).
  assert (Hcases : forall w, w ∈ words ->
            w = header \/ w = footer \/ adc_type w = DATA_BITS).
  { intros w Hw. rewrite Hperm in Hw.
    apply elem_of_cons in Hw as [->|Hw]; [tauto|].
    apply elem_of_cons in Hw as [->|Hw]; [tauto|]. auto. }
  assert (Hall : forallb known_type words = true).
  { apply forallb_forall. intros w Hw. apply list_elem_of_In in Hw.
    apply known_type_iff.
    destruct (Hcases w Hw) as [->|[->|H]]; tauto. }
  assert (Hnp : n_present m' = adc_n_present header).
  { eapply (scan_sets_field n_present HEADER_BITS adc_n_present
              buffer_n_present words bank true);
      [exact Hwf| |exact Hh| |exact Hloop].
    - rewrite Hperm. left.
    - intros w Hw Ht. destruct (Hcases w Hw) as [->|[->|H]]; auto.
      + rewrite Hf in Ht. discriminate.
      + rewrite H in Ht. discriminate. }
  assert (Hct : count m' = adc_count footer).
  { eapply (scan_sets_field count FOOTER_BITS adc_count buffer_count
              words bank true);
      [exact Hwf| |exact Hf| |exact Hloop].
    - rewrite Hperm. right. left.
    - intros w Hw Ht. destruct (Hcases w Hw) as [->|[->|H]]; auto.
      + rewrite Hh in Ht. discriminate.
      + rewrite H in Ht. discriminate. }
  exists m'. rewrite Hloop, Hall. split; [reflexivity|].
  split; [exact Hnp|]. split; [|split; [exact Hct|]].
  - rewrite Hnp. unfold adc_n_present. change READ8 with (Z.ones 8).
    rewrite Z.land_ones by lia. rewrite Z.shiftr_div_pow2 by lia. reflexivity.
  - rewrite Hct. unfold adc_count. change READ24 with (Z.ones 24).
    rewrite Z.land_ones by lia. rewrite Z.shiftr_0_r. reflexivity.
Qed.

Lemma header_footer_independent_witness :
  let module := reset (mkAdc 0 0 0 0 (replicate 32 0)) in
  let words := [0x00051abc; 0x02000440; 0x00070123; 0x04000007; 0x00051fff] in
  exists module',
    unpack_adc {[ "VADC" := words ]} "VADC" module = Done (true, module') /\
    n_present module' = 17 /\
    count module' = 7.
Proof.
  intros module words.
  assert (Hperm : words ≡ₚ 0x02000440 :: 0x04000007
                           :: [0x00051abc; 0x00070123; 0x00051fff]).
  { unfold words.
    transitivity
      (0x02000440 :: [0x00051abc; 0x00070123; 0x04000007; 0x00051fff]).
    - apply perm_swap.
    - apply perm_skip. symmetry.
      apply (Permutation_middle [0x00051abc; 0x00070123] [0x00051fff]). }
  destruct (header_footer_independent {[ "VADC" := words ]} "VADC" words
              0x02000440 0x04000007 [0x00051abc; 0x00070123; 0x00051fff]
              module)
    as (m' & Hrun & Hn & _ & Hc & _).
  - reflexivity.
  - vm_compute. reflexivity.
  - exact Hperm.
  - reflexivity.
  - reflexivity.
  - intros d Hd. repeat (apply elem_of_cons in Hd as [->|Hd]; [reflexivity|]).
    inversion Hd.
  - exists m'. split; [exact Hrun|]. split; [rewrite Hn|rewrite Hc]; reflexivity.
Defined.

End BankTheorems.

(** ** The coincidence queue *)

Module QueueTheorems.
Import TStamp.

(** One step of the drain loop. *)
Lemma drain_unfold q d : drain q d = match flush_iterative q d with
  | (q', d', evicted, O) => (q', d', option_list evicted)
  | (q', d', evicted, S n) => let '(q'', d'', es) := drain q' d' in (q'', d'', option_list evicted ++ es) end.
Proof.
  rewrite drain_equation_1.
  destruct (inspect (flush_iterative q d)) as [[[[q' d'] ev] [|n]] Heq].
  - rewrite drain_clause_1_equation_1, Heq. reflexivity.
  - rewrite drain_clause_1_equation_2, Heq. reflexivity.
Qed.

(** Draining returns, with the queue empty and the pending events evicted
    oldest first. *)
Lemma drain_empties (n : nat) : forall q d, depth q = n ->
  exists q' d', drain q d = (q', d', pending q) /\ depth q' = 0%nat.
Proof.
  induction n as [|n IH]; intros q d Hn; rewrite drain_unfold;
    unfold flush_iterative, depth in *.
  - destruct (pending q) as [|e rest] eqn:Hp; [|discriminate].
    exists q, d. rewrite Hp. split; reflexivity.
  - destruct (pending q) as [|e rest] eqn:Hp; [discriminate|].
    injection Hn as Hn.
    destruct rest as [|e' rest'] eqn:Hrest.
    + cbn [length]. eexists _, _. split; reflexivity.
    + cbn [length].
      destruct (IH (mkQueue (window q) (timeout q) (e' :: rest') (arrivals q))
                   (count_unmatched d) Hn) as (q' & d' & Hd & Hz).
      rewrite Hd. cbn [pending]. exists q', d'. split; [reflexivity|exact Hz].
Qed.

Lemma flush_n_empties (n : nat) : forall q d, depth q = n ->
  exists q' d', flush_n n q d = (q', d', pending q) /\ depth q' = 0%nat.
Proof.
  induction n as [|n IH]; intros q d Hn; cbn [flush_n];
    unfold flush_iterative, depth in *.
  - destruct (pending q) as [|e rest] eqn:Hp; [|discriminate].
    exists q, d. rewrite Hp. split; reflexivity.
  - destruct (pending q) as [|e rest] eqn:Hp; [discriminate|].
    injection Hn as Hn.
    destruct (IH (mkQueue (window q) (timeout q) rest (arrivals q))
                 (count_unmatched d) Hn) as (q' & d' & Hd & Hz).
    rewrite Hd. cbn [pending]. exists q', d'. split; [reflexivity|exact Hz].
Qed.

Lemma distance_add (T delta : Z) : 0 <= delta -> distance (T + delta) T = delta.
Proof. intros H. unfold distance. lia. Qed.

Lemma distance_sub (T delta : Z) : 0 <= delta -> distance T (T + delta) = delta.
Proof. intros H. unfold distance. lia. Qed.

(** C1. Into a queue with nothing pending, a head event at [T] and a tail
    event at [T + delta] with [delta] within the window are pushed, in
    either order: the first push emits nothing, the second emits the
    coincidence of the two events, so exactly one coincidence is emitted;
    no event is left pending, and the match counter has gone up by one. *)
Theorem push_pair_within_window (q : Queue) (d : Diagnostics)
    (T delta : Z) (head_data tail_data : list Z) :
  pending q = [] ->
  0 <= delta <= window q ->
  let h := mkPending Head T head_data in
  let t := mkPending Tail (T + delta) tail_data in
  (exists q1 d1 q2 d2,
      push Head T head_data q d = (q1, d1, None) /\
      push Tail (T + delta) tail_data q1 d1
      = (q2, d2, Some (mkCoinc (h (arrivals q)) (t (S (arrivals q))))) /\
      pending q2 = [] /\
      matches d2 = S (matches d)) /\
  (exists q1 d1 q2 d2,
      push Tail (T + delta) tail_data q d = (q1, d1, None) /\
      push Head T head_data q1 d1
      = (q2, d2, Some (mkCoinc (h (S (arrivals q))) (t (arrivals q)))) /\
      pending q2 = [] /\
      matches d2 = S (matches d)).
Proof.
  intros Hempty [Hdelta Hwin] h t.
  assert (Hneq : (S (arrivals q) =? arrivals q)%nat = false)
    by (apply Nat.eqb_neq; lia).
  assert (Hneq' : (arrivals q =? S (arrivals q))%nat = false)
    by (apply Nat.eqb_neq; lia).
  split.
  - eexists _, _, _, _.
    split; [unfold push, is_out_of_order; rewrite Hempty; reflexivity|].
    unfold push, is_out_of_order.
    cbn [pending window timeout arrivals List.filter app of_subsystem other
         same_subsystem subsystem closest timestamp].
    rewrite distance_add by assumption.
    replace (delta <=? window q) with true by (symmetry; apply Z.leb_le; lia).
    unfold remove_arrival.
    repeat (cbn [List.filter arrival negb];
            rewrite ?Nat.eqb_refl, ?Hneq, ?Hneq').
    cbn [negb make_coinc subsystem pending matches count_match count_push].
    repeat split.
  - eexists _, _, _, _.
    split; [unfold push, is_out_of_order; rewrite Hempty; reflexivity|].
    unfold push, is_out_of_order.
    cbn [pending window timeout arrivals List.filter app of_subsystem other
         same_subsystem subsystem closest timestamp].
    rewrite distance_sub by assumption.
    replace (delta <=? window q) with true by (symmetry; apply Z.leb_le; lia).
    unfold remove_arrival.
    repeat (cbn [List.filter arrival negb];
            rewrite ?Nat.eqb_refl, ?Hneq, ?Hneq').
    cbn [negb make_coinc subsystem pending matches count_match count_push].
    repeat split.
Qed.

(** The scenario of the specification: head at 100 and tail at 101 with a
    window of 5. *)
Lemma push_pair_within_window_witness :
  exists q1 d1 q2 d2 c,
    push Head 100 [] (new_queue 5 50) diag_reset = (q1, d1, None) /\
    push Tail 101 [] q1 d1 = (q2, d2, Some c) /\
    pending q2 = [] /\
    matches d2 = 1%nat.
Proof.
  destruct (push_pair_within_window (new_queue 5 50) diag_reset 100 1 [] [])
    as [(q1 & d1 & q2 & d2 & H1 & H2 & H3 & H4) _].
  - reflexivity.
  - cbn [window new_queue]. lia.
  - exists q1, d1, q2, d2. eexists.
    split; [exact H1|]. split; [exact H2|]. split; [exact H3|exact H4].
Defined.

(** C2. On a queue with at least one pending event, one call of
    [flush_iterative] evicts the oldest one, leaves the depth one lower and
    returns that depth; on an empty queue a call changes nothing and
    returns 0. As many calls as the queue has pending events empty it, the
    call after them is such a no-op, and the drain loop that calls until
    the returned depth is 0 returns with the queue empty. *)
Theorem flush_iterative_reduces_depth (q : Queue) (d : Diagnostics) :
  ((1 <= depth q)%nat ->
   exists q' d' oldest,
     flush_iterative q d = (q', d', Some oldest, depth q') /\
     S (depth q') = depth q /\
     pending q = oldest :: pending q' /\
     unmatched d' = S (unmatched d)) /\
  (depth q = 0%nat -> flush_iterative q d = (q, d, None, 0%nat)) /\
  (exists q' d',
     flush_n (depth q) q d = (q', d', pending q) /\
     depth q' = 0%nat /\
     flush_iterative q' d' = (q', d', None, 0%nat)) /\
  (exists q' d',
     drain q d = (q', d', pending q) /\ depth q' = 0%nat).
Proof.
  split; [|split; [|split]].
  - intros Hpos. unfold flush_iterative, depth in *.
    destruct (pending q) as [|oldest rest]; [cbn [length] in Hpos; lia|].
    exists (mkQueue (window q) (timeout q) rest (arrivals q)),
      (count_unmatched d), oldest.
    repeat split.
  - intros Hzero. unfold flush_iterative, depth in *.
    destruct (pending q); [reflexivity|discriminate].
  - destruct (flush_n_empties (depth q) q d eq_refl) as (q' & d' & Hn & Hz).
    exists q', d'. split; [exact Hn|]. split; [exact Hz|].
    unfold flush_iterative, depth in *.
    destruct (pending q'); [reflexivity|discriminate].
  - exact (drain_empties (depth q) q d eq_refl).
Qed.

Lemma flush_iterative_reduces_depth_witness :
  let q := mkQueue 5 50 [mkPending Head 100 [] 0; mkPending Tail 200 [] 1] 2 in
  exists q' d' oldest,
    flush_iterative q diag_reset = (q', d', Some oldest, 1%nat) /\
    oldest = mkPending Head 100 [] 0 /\
    depth q' = 1%nat.
Proof.
  intros q.
  destruct (flush_iterative_reduces_depth q diag_reset) as [Hpos _].
  destruct (Hpos ltac:(cbn; lia)) as (q' & d' & oldest & Hcall & Hdepth & Hp & _).
  assert (Hd : depth q' = 1%nat) by (cbn in Hdepth; lia).
  exists q', d', oldest.
  split; [rewrite <- Hd; exact Hcall|]. split; [|exact Hd].
  cbn in Hp. congruence.
Defined.

End QueueTheorems.

(** ** The orchestrator *)

Module UnpackTheorems.
Import TStamp Unpack.

Section Modes.

Variable kCoincWindowDefault : Z.
Variable kQueueTimeDefault : Z.
Variable Flush : Queue -> Z -> Diagnostics ->
                 Queue * Diagnostics * list PendingEvent.

Lemma fQueue_push_back (code : EventId) (u : Unpacker) :
  fQueue (push_back code u) = fQueue u.
Proof. reflexivity. Qed.

Lemma fQueue_Process (e : PendingEvent) (u : Unpacker) :
  fQueue (Process e u) = fQueue u.
Proof. unfold Process. destruct (subsystem e); reflexivity. Qed.

Lemma fQueue_ProcessCoinc (e1 e2 : PendingEvent) (u : Unpacker) :
  fQueue (ProcessCoinc e1 e2 u) = fQueue u.
Proof. unfold ProcessCoinc. destruct (same_subsystem _ _); reflexivity. Qed.

Lemma fQueue_singles (singles : list PendingEvent) (u : Unpacker) :
  fQueue (foldl (fun u e => Process e u) u singles) = fQueue u.
Proof.
  revert u. induction singles as [|e singles IH]; intros u; cbn [foldl].
  - reflexivity.
  - rewrite IH. apply fQueue_Process.
Qed.

(** With the queue pointer null, a call that returns leaves it null. *)
Lemma call_keeps_null (c : Call) (u u' : Unpacker) :
  fQueue u = None -> call Flush c u = Ok u' -> fQueue u' = None.
Proof.
  intros Hnull. destruct c as [t| | |event|e|e1 e2|]; cbn [call].
  - unfold FlushQueue. rewrite Hnull. discriminate.
  - unfold FlushQueueIterative. rewrite Hnull. discriminate.
  - intros [= <-]. exact Hnull.
  - unfold UnpackMidasEvent, IsSinglesMode. cbn [fQueue]. rewrite Hnull.
    destruct (fEventId event); intros [= <-]; reflexivity.
  - intros [= <-]. rewrite fQueue_Process. exact Hnull.
  - intros [= <-]. rewrite fQueue_ProcessCoinc. exact Hnull.
  - intros [= <-]. exact Hnull.
Qed.

(** With a queue, every call returns and leaves a queue. *)
Lemma call_keeps_queue (c : Call) (u : Unpacker) :
  is_Some (fQueue u) ->
  exists u', call Flush c u = Ok u' /\ is_Some (fQueue u').
Proof.
  intros [q Hq]. destruct c as [t| | |event|e|e1 e2|]; cbn [call].
  - unfold FlushQueue. rewrite Hq.
    destruct (Flush q t (fDiag u)) as [[q' d'] singles].
    eexists. split; [reflexivity|]. rewrite fQueue_singles. eexists. reflexivity.
  - unfold FlushQueueIterative. rewrite Hq.
    destruct (flush_iterative q (fDiag u)) as [[[q' d'] single] size].
    eexists. split; [reflexivity|]. rewrite fQueue_singles. eexists. reflexivity.
  - eexists. split; [reflexivity|]. exists q. exact Hq.
  - unfold UnpackMidasEvent, IsSinglesMode, Push. cbn [fQueue]. rewrite Hq.
    destruct (fEventId event);
      try (eexists; split; [reflexivity|]; exists q; reflexivity).
    + cbn [fDiag].
      destruct (push Head (fTimestamp event) (fData event) q (fDiag u))
        as [[q' d'] [c|]];
        (eexists; split; [reflexivity|]);
        rewrite ?fQueue_ProcessCoinc; eexists; reflexivity.
    + cbn [fDiag].
      destruct (push Tail (fTimestamp event) (fData event) q (fDiag u))
        as [[q' d'] [c|]];
        (eexists; split; [reflexivity|]);
        rewrite ?fQueue_ProcessCoinc; eexists; reflexivity.
  - eexists. split; [reflexivity|]. rewrite fQueue_Process. exists q. exact Hq.
  - eexists. split; [reflexivity|]. rewrite fQueue_ProcessCoinc.
    exists q. exact Hq.
  - eexists. split; [reflexivity|]. exists q. exact Hq.
Qed.

Lemma calls_keep_null (cs : list Call) (u u' : Unpacker) :
  fQueue u = None -> calls Flush cs u = Ok u' -> fQueue u' = None.
Proof.
  revert u. induction cs as [|c cs IH]; intros u Hnull; cbn [calls].
  - intros [= <-]. exact Hnull.
  - destruct (call Flush c u) as [u1|] eqn:Hc; [|discriminate].
    apply IH. exact (call_keeps_null c u u1 Hnull Hc).
Qed.

Lemma calls_keep_queue (cs : list Call) (u : Unpacker) :
  is_Some (fQueue u) ->
  exists u', calls Flush cs u = Ok u' /\ is_Some (fQueue u').
Proof.
  revert u. induction cs as [|c cs IH]; intros u Hq; cbn [calls].
  - exists u. split; [reflexivity|exact Hq].
  - destruct (call_keeps_queue c u Hq) as (u1 & -> & Hq1). apply IH. exact Hq1.
Qed.

(** C9. An [Unpacker] constructed in singles mode has a null queue
    pointer, and the pointer is still null after any sequence of calls that
    return; [FlushQueue] and [FlushQueueIterative] on it go through the null
    pointer. Constructed in coincidence mode, the [Unpacker] has a queue
    after any sequence of calls, and the two operations return. *)
Theorem singles_mode_has_no_queue (tsdiag : Diagnostics) (cs : list Call)
    (u : Unpacker) :
  calls Flush cs (Unpacker_new kCoincWindowDefault kQueueTimeDefault tsdiag true)
  = Ok u ->
  fQueue (Unpacker_new kCoincWindowDefault kQueueTimeDefault tsdiag true) = None /\
  fQueue u = None /\
  IsSinglesMode u = true /\
  (forall flushTime, FlushQueue Flush flushTime u = NullDereference) /\
  FlushQueueIterative u = NullDereference /\
  (exists u',
      calls Flush cs
            (Unpacker_new kCoincWindowDefault kQueueTimeDefault tsdiag false)
      = Ok u' /\
      IsSinglesMode u' = false /\
      (forall flushTime, FlushQueue Flush flushTime u' <> NullDereference) /\
      FlushQueueIterative u' <> NullDereference).
Proof.
  intros Hcalls.
  assert (Hnull : fQueue u = None)
    by (eapply calls_keep_null; [|exact Hcalls]; reflexivity).
  split; [reflexivity|]. split; [exact Hnull|].
  split; [unfold IsSinglesMode; rewrite Hnull; reflexivity|].
  split; [intros t; unfold FlushQueue; rewrite Hnull; reflexivity|].
  split; [unfold FlushQueueIterative; rewrite Hnull; reflexivity|].
  destruct (calls_keep_queue cs
              (Unpacker_new kCoincWindowDefault kQueueTimeDefault tsdiag false))
    as (u' & Hcalls' & [q Hq]).
  { eexists. reflexivity. }
  exists u'. split; [exact Hcalls'|].
  split; [unfold IsSinglesMode; rewrite Hq; reflexivity|]. split.
  - intros t. unfold FlushQueue. rewrite Hq.
    destruct (Flush q t (fDiag u')) as [[q' d'] singles]. discriminate.
  - unfold FlushQueueIterative. rewrite Hq.
    destruct (flush_iterative q (fDiag u')) as [[[q' d'] single] size].
    discriminate.
Qed.

End Modes.

Lemma singles_mode_has_no_queue_witness :
  let Flush := fun (q : Queue) (_ : Z) (d : Diagnostics) =>
                 (q, d, @nil PendingEvent) in
  let head := mkMidasEvent DRAGON_HEAD_EVENT 100 [] in
  exists u,
    calls Flush [CallUnpackMidasEvent head; CallHandleBor]
          (Unpacker_new 10 2 diag_reset true) = Ok u /\
    fQueue u = None /\
    FlushQueue Flush 160 u = NullDereference /\
    FlushQueueIterative u = NullDereference.
Proof.
  intros Flush head. eexists. split; [reflexivity|].
  destruct (singles_mode_has_no_queue 10 2 Flush diag_reset
              [CallUnpackMidasEvent head; CallHandleBor] _ eq_refl)
    as (_ & Hnull & _ & Hflush & Hiter & _).
  split; [exact Hnull|]. split; [apply Hflush|exact Hiter].
Defined.

(** In coincidence mode the head and tail events go through the queue: the
    scenario of the specification, head at 100 then tail at 101, leaves the
    queue empty and records one coincidence. *)
Example coincidence_mode_scenario :
  let u0 := Unpacker_new 5 2 diag_reset false in
  exists u1 u2,
    UnpackMidasEvent (mkMidasEvent DRAGON_HEAD_EVENT 100 []) u0 = Ok (u1, []) /\
    UnpackMidasEvent (mkMidasEvent DRAGON_TAIL_EVENT 101 []) u1
    = Ok (u2, [DRAGON_COINC_EVENT]) /\
    (depth <$> fQueue u2) = Some 0%nat /\
    matches (fDiag u2) = 1%nat.
Proof.
  intros u0. eexists _, _. repeat split.
Qed.

End UnpackTheorems.

(** ** Resetting and copying a record; the array form of the validity test *)

Module ResetTheorems.
Import Bits Caen.

(** Storing [v] at the indices [0 .. k-1] of an array that has them. *)
Lemma fill_prefix (v : Z) (k : nat) (d : list Z) :
  (k <= length d)%nat ->
  foldl (fun d i => <[i := v]> d) d (seq 0 k) = replicate k v ++ drop k d.
Proof.
  induction k as [|k IH]; intros Hk.
  - reflexivity.
  - rewrite seq_S, foldl_app, IH by lia. cbn [foldl Nat.add].
    rewrite insert_app_r_alt by (rewrite length_replicate; lia).
    rewrite length_replicate, Nat.sub_diag.
    destruct (lookup_lt_is_Some_2 d k ltac:(lia)) as [x Hx].
    rewrite (drop_S d x k Hx). cbn [insert list_insert].
    rewrite replicate_S_end, <- app_assoc. reflexivity.
Qed.

(** A reset record holds [vme::NONE] in each of its channels. *)
Lemma reset_data_none (module : Adc) :
  wf module ->
  data (reset module) = replicate N_CH Vme.NONE /\ wf (reset module).
Proof.
  intros Hwf.
  assert (Hdata : data (reset module) = replicate N_CH Vme.NONE).
  { unfold reset. cbn [data]. rewrite fill_prefix by (rewrite Hwf; lia).
    rewrite drop_ge by (rewrite Hwf; lia). apply app_nil_r. }
  split; [exact Hdata|]. unfold wf. rewrite Hdata. apply length_replicate.
Qed.

(** X1. [vme::reset] on a record with its [N_CH] channels: every channel
    holds [vme::NONE] afterwards, whatever it held, so that no channel is
    valid; the other fields are as before, and a second reset changes
    nothing. *)
Theorem reset_all_none (module : Adc) :
  wf module ->
  data (reset module) = replicate N_CH Vme.NONE /\
  wf (reset module) /\
  (forall j : nat, (j < N_CH)%nat -> data (reset module) !! j = Some Vme.NONE) /\
  Vme.is_valid_array (data (reset module)) (Z.of_nat N_CH) = Some false /\
  n_present (reset module) = n_present module /\
  count (reset module) = count module /\
  overflow (reset module) = overflow module /\
  underflow (reset module) = underflow module /\
  reset (reset module) = reset module.
Proof.
  intros Hwf. destruct (reset_data_none module Hwf) as (Hdata & Hwfr).
  split; [exact Hdata|]. split; [exact Hwfr|].
  split; [intros j Hj; rewrite Hdata; apply lookup_replicate_2; exact Hj|].
  split; [rewrite Hdata; reflexivity|].
  repeat (split; [reflexivity|]).
  unfold reset at 1. cbn [n_present count overflow underflow].
  rewrite fill_prefix by (rewrite Hdata, length_replicate; lia).
  rewrite drop_ge by (rewrite Hdata, length_replicate; lia).
  rewrite app_nil_r, <- Hdata. destruct (reset module); reflexivity.
Qed.

Lemma reset_all_none_witness :
  data (reset (mkAdc 3 7 1 0 ((replicate 32 5)))) = replicate 32 Vme.NONE.
Proof.
  apply (reset_all_none (mkAdc 3 7 1 0 ((replicate 32 5)))). reflexivity.
Defined.

(** X2. [vme::copy_data] from a record with its [N_CH] channels: when the
    destination has room for [N_CH] values, its first [N_CH] entries become
    the channels of the record and the entries after them are kept; when it
    has not, the copy runs past its end. *)
Theorem copy_data_frame (module : Adc) (destination : list Z) :
  wf module ->
  ((length destination < N_CH)%nat -> copy_data module destination = None) /\
  ((N_CH <= length destination)%nat ->
   exists destination',
     copy_data module destination = Some destination' /\
     length destination' = length destination /\
     take N_CH destination' = data module /\
     drop N_CH destination' = drop N_CH destination /\
     (forall j : nat, (j < N_CH)%nat -> destination' !! j = data module !! j) /\
     (forall j : nat, (N_CH <= j)%nat -> destination' !! j = destination !! j)).
Proof.
  intros Hwf. unfold copy_data. rewrite Hwf. split.
  - intros Hshort.
    replace (N_CH <=? length destination)%nat with false
      by (symmetry; apply Nat.leb_gt; exact Hshort).
    reflexivity.
  - intros Hroom.
    replace (N_CH <=? length destination)%nat with true
      by (symmetry; apply Nat.leb_le; exact Hroom).
    rewrite Nat.leb_refl. cbn [andb]. eexists. split; [reflexivity|].
    rewrite take_ge by (rewrite Hwf; lia).
    split; [rewrite length_app, length_drop, Hwf; lia|].
    split; [rewrite take_app_length' by (symmetry; exact Hwf); reflexivity|].
    split; [rewrite drop_app_length' by (symmetry; exact Hwf); reflexivity|].
    split.
    + intros j Hj. apply lookup_app_l. rewrite Hwf. exact Hj.
    + intros j Hj. rewrite lookup_app_r by (rewrite Hwf; exact Hj).
      rewrite lookup_drop, Hwf. f_equal. lia.
Qed.

Lemma copy_data_frame_witness :
  let module := reset (mkAdc 0 0 0 0 (replicate 32 0)) in
  copy_data module (replicate 31 5) = None /\
  exists destination',
    copy_data module (replicate 33 5) = Some destination' /\
    destination' !! 31%nat = Some Vme.NONE /\
    destination' !! 32%nat = Some 5.
Proof.
  intros module.
  destruct (copy_data_frame module (replicate 31 5) eq_refl) as [Hshort _].
  destruct (copy_data_frame module (replicate 33 5) eq_refl) as [_ Hroom].
  split; [apply Hshort; unfold N_CH; cbn; lia|].
  destruct (Hroom ltac:(unfold N_CH; cbn; lia))
    as (d & Hd & _ & _ & _ & Hin & Hout).
  exists d. split; [exact Hd|].
  rewrite (Hin 31%nat) by (unfold N_CH; lia).
  rewrite (Hout 32%nat) by (unfold N_CH; lia).
  split; reflexivity.
Defined.

(** What the loop of the array form returns from index [i] on. *)
Lemma is_valid_loop_take (tArray : list Z) (i todo : nat) :
  (i <= length tArray)%nat ->
  Vme.is_valid_loop tArray i todo
  = if forallb Vme.is_valid (take todo (drop i tArray))
    then (if (i + todo <=? length tArray)%nat then Some true else None)
    else Some false.
Proof.
  revert i. induction todo as [|todo IH]; intros i Hi; cbn [Vme.is_valid_loop].
  - cbn [take forallb]. rewrite Nat.add_0_r.
    replace (i <=? length tArray)%nat with true
      by (symmetry; apply Nat.leb_le; exact Hi).
    reflexivity.
  - destruct (tArray !! i) as [t|] eqn:Ht.
    + rewrite (drop_S tArray t i Ht). cbn [take forallb].
      unfold Vme.is_valid at 1.
      destruct (t =? Vme.NONE); cbn [negb andb]; [reflexivity|].
      apply lookup_lt_Some in Ht.
      rewrite IH by lia.
      replace (S i + todo)%nat with (i + S todo)%nat by lia. reflexivity.
    + apply lookup_ge_None in Ht.
      rewrite drop_ge by exact Ht. rewrite take_nil. cbn [forallb].
      replace (i + S todo <=? length tArray)%nat with false
        by (symmetry; apply Nat.leb_gt; lia).
      reflexivity.
Qed.

(** X3. The array form of [is_valid] with a length that is not the length
    of the array. A length of zero or less gives true; a length within the
    array tests the first [len] elements only; a length beyond the array
    still gives false when an element of the array is [NONE], the loop
    stopping there, and reads past the end of the array when every element
    is valid. *)
Theorem is_valid_array_bounds (tArray : list Z) (len : Z) :
  (len <= 0 -> Vme.is_valid_array tArray len = Some true) /\
  (0 <= len <= Z.of_nat (length tArray) ->
   Vme.is_valid_array tArray len
   = Some (forallb Vme.is_valid (take (Z.to_nat len) tArray))) /\
  (Z.of_nat (length tArray) < len ->
   Vme.is_valid_array tArray len
   = if forallb Vme.is_valid tArray then None else Some false).
Proof.
  unfold Vme.is_valid_array. split; [|split].
  - intros Hlen. replace (Z.to_nat len) with 0%nat by lia. reflexivity.
  - intros Hlen. rewrite is_valid_loop_take by lia. rewrite drop_0.
    replace (0 + Z.to_nat len <=? length tArray)%nat with true
      by (symmetry; apply Nat.leb_le; lia).
    destruct (forallb _ _); reflexivity.
  - intros Hlen. rewrite is_valid_loop_take by lia. rewrite drop_0.
    rewrite take_ge by lia.
    replace (0 + Z.to_nat len <=? length tArray)%nat with false
      by (symmetry; apply Nat.leb_gt; lia).
    reflexivity.
Qed.

Lemma is_valid_array_bounds_witness :
  Vme.is_valid_array [3; Vme.NONE; 4] 0 = Some true /\
  Vme.is_valid_array [3; Vme.NONE; 4] 1 = Some true /\
  Vme.is_valid_array [3; Vme.NONE; 4] 9 = Some false /\
  Vme.is_valid_array [3; 4] 9 = None.
Proof.
  destruct (is_valid_array_bounds [3; Vme.NONE; 4] 0) as [H0 _].
  destruct (is_valid_array_bounds [3; Vme.NONE; 4] 1) as (_ & H1 & _).
  destruct (is_valid_array_bounds [3; Vme.NONE; 4] 9) as (_ & _ & H9).
  destruct (is_valid_array_bounds [3; 4] 9) as (_ & _ & H9').
  split; [apply H0; lia|].
  split; [rewrite H1 by (cbn; lia); reflexivity|].
  split; [rewrite H9 by (cbn; lia); reflexivity|].
  rewrite H9' by (cbn; lia). reflexivity.
Defined.

End ResetTheorems.

(** ** Scanning a bank: which word decides each field *)

Module ScanTheorems.
Import Bits Caen CaenTheorems BankTheorems.

(** One buffer word, in full: what every field of the record holds after
    it. Only a DATA word changes the channels and the flags. *)
Lemma unpack_adc_buffer_full (w : Z) (bank : string) (module : Adc) :
  wf module ->
  exists module',
    unpack_adc_buffer w bank module = Done (known_type w, module') /\
    wf module' /\
    data module'
    = (if adc_type w =? DATA_BITS
       then <[Z.to_nat (adc_channel w) := adc_value w]> (data module)
       else data module) /\
    overflow module'
    = (if adc_type w =? DATA_BITS then adc_overflow w else overflow module) /\
    underflow module'
    = (if adc_type w =? DATA_BITS then adc_underflow w else underflow module) /\
    n_present module'
    = (if adc_type w =? HEADER_BITS then adc_n_present w else n_present module) /\
    count module'
    = (if adc_type w =? FOOTER_BITS then adc_count w else count module).
Proof.
  intros Hwf.
  destruct (unpack_adc_buffer_spec w bank module Hwf)
    as (m' & Hbuf & Hwf' & Hn & Hc & Hsame).
  exists m'. split; [exact Hbuf|]. split; [exact Hwf'|].
  destruct (Z.eqb_spec (adc_type w) DATA_BITS) as [E0|N0].
  - revert Hbuf. unfold unpack_adc_buffer, run_adc_unpacker.
    fold (adc_type w). rewrite unpackers_lookup, E0.
    cbn [Z.eqb DATA_BITS INVALID_BITS FOOTER_BITS HEADER_BITS].
    rewrite unpack_adc_data_done by assumption.
    intros [= _ <-]. cbn [data overflow underflow n_present count].
    repeat split.
  - assert (Hcases : known_type w = false \/ adc_type w = INVALID_BITS
                     \/ adc_type w = HEADER_BITS \/ adc_type w = FOOTER_BITS).
    { destruct (known_type w) eqn:Hk; [|tauto].
      apply known_type_iff in Hk. tauto. }
    assert (Hrest : data m' = data module /\ overflow m' = overflow module /\
                    underflow m' = underflow module).
    { destruct Hcases as [H|[H|[H|H]]].
      - rewrite (Hsame (or_introl H)). auto.
      - rewrite (Hsame (or_intror H)). auto.
      - revert Hbuf. unfold unpack_adc_buffer, run_adc_unpacker.
        fold (adc_type w). rewrite unpackers_lookup, H.
        cbn [Z.eqb DATA_BITS INVALID_BITS FOOTER_BITS HEADER_BITS].
        unfold unpack_adc_header. intros [= _ <-]. auto.
      - revert Hbuf. unfold unpack_adc_buffer, run_adc_unpacker.
        fold (adc_type w). rewrite unpackers_lookup, H.
        cbn [Z.eqb DATA_BITS INVALID_BITS FOOTER_BITS HEADER_BITS].
        unfold unpack_adc_footer. intros [= _ <-]. auto. }
    destruct Hrest as (Hd & Ho & Hu). auto.
Qed.

(** In a list, either no element passes a test, or there is a last one
    that does. *)
Lemma last_occurrence {A : Type} (P : A -> bool) (l : list A) :
  (forall x, x ∈ l -> P x = false) \/
  (exists before x after,
      l = before ++ x :: after /\ P x = true /\
      forall y, y ∈ after -> P y = false).
Proof.
  induction l as [|x l IH] using rev_ind.
  - left. intros x Hx. inversion Hx.
  - destruct (P x) eqn:Hx.
    + right. exists l, x, []. split; [reflexivity|]. split; [exact Hx|].
      intros y Hy. inversion Hy.
    + destruct IH as [Hnone|(before & y & after & -> & Hy & Hafter)].
      * left. intros z Hz. apply elem_of_app in Hz as [Hz|Hz]; [auto|].
        apply list_elem_of_singleton in Hz as ->. exact Hx.
      * right. exists before, y, (after ++ [x]).
        split; [rewrite <- app_assoc; reflexivity|]. split; [exact Hy|].
        intros z Hz. apply elem_of_app in Hz as [Hz|Hz]; [auto|].
        apply list_elem_of_singleton in Hz as ->. exact Hx.
Qed.

(** An observation of the record that the words passing a test assign, and
    no other word changes: after a scan it holds what the last such word
    assigned. *)
Section LastWriter.

Context {A : Type}.
Variable observe : Adc -> A.
Variable writes : Z -> bool.
Variable value : Z -> A.
Hypothesis buffer_observe :
  forall (w : Z) (bank : string) (module : Adc),
    wf module ->
    exists module',
      unpack_adc_buffer w bank module = Done (known_type w, module') /\
      wf module' /\
      observe module' = (if writes w then value w else observe module).

Lemma scan_unwritten (words : list Z) (bank : string) (ret r : bool)
    (module module' : Adc) :
  wf module ->
  (forall w, w ∈ words -> writes w = false) ->
  unpack_adc_loop words bank ret module = Done (r, module') ->
  observe module' = observe module.
Proof.
  revert ret module. induction words as [|w words IH];
    intros ret module Hwf Hnone; cbn [unpack_adc_loop].
  - intros [= _ <-]. reflexivity.
  - destruct (buffer_observe w bank module Hwf) as (m1 & -> & Hwf1 & Hobs).
    intros Hloop.
    rewrite (IH _ m1 Hwf1 ltac:(intros; apply Hnone; right; assumption) Hloop).
    rewrite Hobs, (Hnone w) by left. reflexivity.
Qed.

Lemma scan_last_writer (before after : list Z) (w : Z) (bank : string)
    (ret r : bool) (module module' : Adc) :
  wf module ->
  writes w = true ->
  (forall w', w' ∈ after -> writes w' = false) ->
  unpack_adc_loop (before ++ w :: after) bank ret module = Done (r, module') ->
  observe module' = value w.
Proof.
  intros Hwf Hw Hafter. rewrite unpack_adc_loop_app.
  destruct (unpack_adc_loop_spec before bank ret module Hwf)
    as (m1 & -> & Hwf1).
  cbn [unpack_adc_loop].
  destruct (buffer_observe w bank m1 Hwf1) as (m2 & -> & Hwf2 & Hobs).
  intros Hloop.
  rewrite (scan_unwritten after bank _ r m2 module' Hwf2 Hafter Hloop).
  rewrite Hobs, Hw. reflexivity.
Qed.

(** Scanning the words a second time leaves the observation as it is. *)
Lemma scan_twice (words : list Z) (bank : string) (ret ret' r r' : bool)
    (module module1 module2 : Adc) :
  wf module ->
  unpack_adc_loop words bank ret module = Done (r, module1) ->
  unpack_adc_loop words bank ret' module1 = Done (r', module2) ->
  observe module2 = observe module1.
Proof.
  intros Hwf H1 H2.
  assert (Hwf1 : wf module1).
  { destruct (unpack_adc_loop_spec words bank ret module Hwf)
      as (m & Hm & Hwfm). rewrite H1 in Hm. injection Hm as _ <-. exact Hwfm. }
  destruct (last_occurrence writes words)
    as [Hnone|(before & w & after & -> & Hw & Hafter)].
  - exact (scan_unwritten words bank ret' r' module1 module2 Hwf1 Hnone H2).
  - rewrite (scan_last_writer before after w bank ret' r' module1 module2
               Hwf1 Hw Hafter H2).
    rewrite (scan_last_writer before after w bank ret r module module1
               Hwf Hw Hafter H1).
    reflexivity.
Qed.

End LastWriter.

(** The instances: a channel, the two flags, the header and footer fields. *)
Lemma buffer_channel (j : nat) (w : Z) (bank : string) (module : Adc) :
  wf module ->
  exists module',
    unpack_adc_buffer w bank module = Done (known_type w, module') /\
    wf module' /\
    data module' !! j
    = (if (adc_type w =? DATA_BITS) && (Z.to_nat (adc_channel w) =? j)%nat
       then Some (adc_value w) else data module !! j).
Proof.
  intros Hwf.
  destruct (unpack_adc_buffer_full w bank module Hwf)
    as (m' & Hbuf & Hwf' & Hd & _).
  exists m'. split; [exact Hbuf|]. split; [exact Hwf'|]. rewrite Hd.
  destruct (adc_type w =? DATA_BITS); cbn [andb]; [|reflexivity].
  destruct (Nat.eqb_spec (Z.to_nat (adc_channel w)) j) as [<-|Hne].
  - apply list_lookup_insert_eq. rewrite Hwf. unfold N_CH.
    pose proof (adc_channel_bounds w). lia.
  - apply list_lookup_insert_ne. exact Hne.
Qed.

Lemma buffer_overflow (w : Z) (bank : string) (module : Adc) :
  wf module ->
  exists module',
    unpack_adc_buffer w bank module = Done (known_type w, module') /\
    wf module' /\
    overflow module'
    = (if adc_type w =? DATA_BITS then adc_overflow w else overflow module).
Proof.
  intros Hwf.
  destruct (unpack_adc_buffer_full w bank module Hwf)
    as (m' & Hbuf & Hwf' & _ & Ho & _).
  exists m'. auto.
Qed.

Lemma buffer_underflow (w : Z) (bank : string) (module : Adc) :
  wf module ->
  exists module',
    unpack_adc_buffer w bank module = Done (known_type w, module') /\
    wf module' /\
    underflow module'
    = (if adc_type w =? DATA_BITS then adc_underflow w else underflow module).
Proof.
  intros Hwf.
  destruct (unpack_adc_buffer_full w bank module Hwf)
    as (m' & Hbuf & Hwf' & _ & _ & Hu & _).
  exists m'. auto.
Qed.

Lemma is_type_false (type : Z) (words : list Z) :
  (forall w, w ∈ words -> adc_type w <> type) ->
  forall w, w ∈ words -> (adc_type w =? type) = false.
Proof. intros H w Hw. apply Z.eqb_neq. apply H. exact Hw. Qed.

(** X4. The channels after a bank is unpacked. Of the DATA words of one
    channel the last one in the bank decides: the channel holds its 12-bit
    value, whatever the earlier words of that channel and the words of the
    other channels are. A channel no DATA word of the bank names is left
    as it was. *)
Theorem data_last_word_wins (event : gmap string (list Z)) (bank : string)
    (words : list Z) (module : Adc) :
  wf module ->
  FindBank event bank = Some words ->
  exists r module',
    unpack_adc event bank module = Done (r, module') /\
    (forall before w after,
        words = before ++ w :: after ->
        adc_type w = DATA_BITS ->
        (forall w', w' ∈ after -> adc_type w' = DATA_BITS ->
                    adc_channel w' <> adc_channel w) ->
        data module' !! Z.to_nat (adc_channel w) = Some (adc_value w)) /\
    (forall j : nat,
        (forall w, w ∈ words -> adc_type w = DATA_BITS ->
                   Z.to_nat (adc_channel w) <> j) ->
        data module' !! j = data module !! j).
Proof.
  intros Hwf Hfind. unfold unpack_adc. rewrite Hfind.
  destruct (unpack_adc_loop_spec words bank true module Hwf)
    as (m' & Hloop & _).
  eexists _, m'. split; [exact Hloop|]. split.
  - intros before w after Hwords Hw Hafter. subst words.
    eapply (scan_last_writer (fun m => data m !! Z.to_nat (adc_channel w)) _ _
              (buffer_channel (Z.to_nat (adc_channel w)))
              before after w bank true); [exact Hwf| | |exact Hloop].
    + apply Z.eqb_eq in Hw. rewrite Hw, Nat.eqb_refl. reflexivity.
    + intros w' Hw'. destruct (Z.eqb_spec (adc_type w') DATA_BITS) as [E|_];
        [|reflexivity]. cbn [andb]. apply Nat.eqb_neq. intros Heq.
      apply (Hafter w' Hw' E).
      pose proof (adc_channel_bounds w). pose proof (adc_channel_bounds w').
      lia.
  - intros j Hnone.
    eapply (scan_unwritten (fun m => data m !! j) _ _ (buffer_channel j)
              words bank true); [exact Hwf| |exact Hloop].
    intros w Hw. destruct (Z.eqb_spec (adc_type w) DATA_BITS) as [E|_];
      [|reflexivity]. cbn [andb]. apply Nat.eqb_neq. exact (Hnone w Hw E).
Qed.

Lemma data_last_word_wins_witness :
  let module := reset (mkAdc 0 0 0 0 (replicate 32 0)) in
  let words := [0x00051abc; 0x00070123; 0x00050fff] in
  exists r module',
    unpack_adc {[ "VADC" := words ]} "VADC" module = Done (r, module') /\
    data module' !! 5%nat = Some 0xfff /\
    data module' !! 6%nat = Some Vme.NONE.
Proof.
  intros module words.
  destruct (data_last_word_wins {[ "VADC" := words ]} "VADC" words module)
    as (r & m' & Hrun & Hlast & Hnone).
  - reflexivity.
  - vm_compute. reflexivity.
  - exists r, m'. split; [exact Hrun|]. split.
    + apply (Hlast [0x00051abc; 0x00070123] 0x00050fff []).
      * reflexivity.
      * reflexivity.
      * intros w' Hw'. inversion Hw'.
    + rewrite (Hnone 6%nat); [reflexivity|].
      intros w Hw _.
      repeat (apply elem_of_cons in Hw as [->|Hw]; [vm_compute; lia|]).
      inversion Hw.
Defined.

(** X5. The scalar fields after a bank is unpacked: [n_present] is the
    field of the last HEADER word, [count] the counter of the last FOOTER
    word, and the overflow and underflow flags are bits 12 and 13 of the
    last DATA word, whatever its channel. A field with no word of its type
    in the bank is left as it was. *)
Theorem scalar_last_word_wins (event : gmap string (list Z)) (bank : string)
    (words : list Z) (module : Adc) :
  wf module ->
  FindBank event bank = Some words ->
  exists r module',
    unpack_adc event bank module = Done (r, module') /\
    (forall before w after,
        words = before ++ w :: after ->
        (forall w', w' ∈ after -> adc_type w' <> adc_type w) ->
        (adc_type w = HEADER_BITS -> n_present module' = adc_n_present w) /\
        (adc_type w = FOOTER_BITS -> count module' = adc_count w) /\
        (adc_type w = DATA_BITS ->
         overflow module' = adc_overflow w /\
         underflow module' = adc_underflow w)) /\
    ((forall w, w ∈ words -> adc_type w <> HEADER_BITS) ->
     n_present module' = n_present module) /\
    ((forall w, w ∈ words -> adc_type w <> FOOTER_BITS) ->
     count module' = count module) /\
    ((forall w, w ∈ words -> adc_type w <> DATA_BITS) ->
     overflow module' = overflow module /\
     underflow module' = underflow module).
Proof.
  intros Hwf Hfind. unfold unpack_adc. rewrite Hfind.
  destruct (unpack_adc_loop_spec words bank true module Hwf)
    as (m' & Hloop & _).
  eexists _, m'. split; [exact Hloop|].
  split; [|split; [|split]].
  - intros before w after Hwords Hafter. subst words.
    split; [|split].
    + intros Hw. rewrite Hw in Hafter.
      eapply (scan_last_writer n_present (fun w => adc_type w =? HEADER_BITS)
               adc_n_present buffer_n_present before after w bank true);
        [exact Hwf|apply Z.eqb_eq; exact Hw
        |apply is_type_false; exact Hafter|exact Hloop].
    + intros Hw. rewrite Hw in Hafter.
      eapply (scan_last_writer count (fun w => adc_type w =? FOOTER_BITS)
               adc_count buffer_count before after w bank true);
        [exact Hwf|apply Z.eqb_eq; exact Hw
        |apply is_type_false; exact Hafter|exact Hloop].
    + intros Hw. rewrite Hw in Hafter. split.
      * eapply (scan_last_writer overflow (fun w => adc_type w =? DATA_BITS)
                 adc_overflow buffer_overflow before after w bank true);
          [exact Hwf|apply Z.eqb_eq; exact Hw
          |apply is_type_false; exact Hafter|exact Hloop].
      * eapply (scan_last_writer underflow (fun w => adc_type w =? DATA_BITS)
                 adc_underflow buffer_underflow before after w bank true);
          [exact Hwf|apply Z.eqb_eq; exact Hw
          |apply is_type_false; exact Hafter|exact Hloop].
  - intros Hnone.
    eapply (scan_unwritten n_present (fun w => adc_type w =? HEADER_BITS)
             adc_n_present buffer_n_present words bank true);
      [exact Hwf|apply is_type_false; exact Hnone|exact Hloop].
  - intros Hnone.
    eapply (scan_unwritten count (fun w => adc_type w =? FOOTER_BITS)
             adc_count buffer_count words bank true);
      [exact Hwf|apply is_type_false; exact Hnone|exact Hloop].
  - intros Hnone. split.
    + eapply (scan_unwritten overflow (fun w => adc_type w =? DATA_BITS)
               adc_overflow buffer_overflow words bank true);
        [exact Hwf|apply is_type_false; exact Hnone|exact Hloop].
    + eapply (scan_unwritten underflow (fun w => adc_type w =? DATA_BITS)
               adc_underflow buffer_underflow words bank true);
        [exact Hwf|apply is_type_false; exact Hnone|exact Hloop].
Qed.

Lemma scalar_last_word_wins_witness :
  let module := reset (mkAdc 0 0 0 0 (replicate 32 0)) in
  let words := [0x00051abc; 0x02000440; 0x00070123; 0x02000080] in
  exists r module',
    unpack_adc {[ "VADC" := words ]} "VADC" module = Done (r, module') /\
    n_present module' = 2 /\
    overflow module' = 0 /\
    count module' = 0.
Proof.
  intros module words.
  destruct (scalar_last_word_wins {[ "VADC" := words ]} "VADC" words module)
    as (r & m' & Hrun & Hlast & _ & Hfooter & _).
  - reflexivity.
  - vm_compute. reflexivity.
  - exists r, m'. split; [exact Hrun|]. split; [|split].
    + destruct (Hlast [0x00051abc; 0x02000440; 0x00070123] 0x02000080 [])
        as (Hh & _); [reflexivity|intros w' Hw'; inversion Hw'|].
      rewrite Hh by reflexivity. reflexivity.
    + destruct (Hlast [0x00051abc; 0x02000440] 0x00070123 [0x02000080])
        as (_ & _ & Hd); [reflexivity| |].
      * intros w' Hw'. apply list_elem_of_singleton in Hw' as ->.
        vm_compute. discriminate.
      * destruct (Hd eq_refl) as [Ho _]. rewrite Ho. reflexivity.
    + rewrite Hfooter; [reflexivity|].
      intros w Hw.
      repeat (apply elem_of_cons in Hw as [->|Hw];
              [vm_compute; discriminate|]).
      inversion Hw.
Defined.

(** A property of the record that every buffer word keeps is kept by the
    scan of a bank. *)
Lemma scan_invariant (Inv : Adc -> Prop) :
  (forall w bank module r module',
      wf module -> Inv module ->
      unpack_adc_buffer w bank module = Done (r, module') -> Inv module') ->
  forall words bank ret module r module',
    wf module -> Inv module ->
    unpack_adc_loop words bank ret module = Done (r, module') ->
    Inv module'.
Proof.
  intros Hstep words. induction words as [|w words IH];
    intros bank ret module r module' Hwf Hinv; cbn [unpack_adc_loop].
  - intros [= _ <-]. exact Hinv.
  - destruct (unpack_adc_buffer_spec w bank module Hwf)
      as (m1 & Hbuf & Hwf1 & _).
    rewrite Hbuf. apply IH; [exact Hwf1|].
    exact (Hstep w bank module _ m1 Hwf Hinv Hbuf).
Qed.

(** X6. Unpacking keeps a record in range: when every channel holds
    [vme::NONE] or a 12-bit value, as after [vme::reset], so it does after
    [unpack_adc], for every event and bank name; the call returns and the
    record still has its [N_CH] channels. *)
Theorem unpack_adc_keeps_range (event : gmap string (list Z)) (bank : string)
    (module : Adc) :
  wf module ->
  Forall (fun x => x = Vme.NONE \/ 0 <= x < 2 ^ 12) (data module) ->
  exists r module',
    unpack_adc event bank module = Done (r, module') /\
    wf module' /\
    Forall (fun x => x = Vme.NONE \/ 0 <= x < 2 ^ 12) (data module').
Proof.
  intros Hwf Hrange. unfold unpack_adc.
  destruct (FindBank event bank) as [words|].
  - destruct (unpack_adc_loop_spec words bank true module Hwf)
      as (m' & Hloop & Hwf').
    eexists _, m'. split; [exact Hloop|]. split; [exact Hwf'|].
    apply (scan_invariant
             (fun m => Forall (fun x => x = Vme.NONE \/ 0 <= x < 2 ^ 12)
                              (data m)))
      with (words := words) (bank := bank) (ret := true) (module := module)
           (r := true && forallb known_type words);
      [|exact Hwf|exact Hrange|exact Hloop].
    intros w bank' m r m1 Hwfm Hm Hbuf.
    destruct (unpack_adc_buffer_full w bank' m Hwfm)
      as (m2 & Hbuf2 & _ & Hd & _).
    rewrite Hbuf in Hbuf2. injection Hbuf2 as _ <-. rewrite Hd.
    destruct (adc_type w =? DATA_BITS); [|exact Hm].
    apply Forall_insert; [exact Hm|]. right.
    pose proof (adc_value_bounds w). change (2 ^ 12) with 4096. lia.
  - exists false, module. auto.
Qed.

Lemma unpack_adc_keeps_range_witness :
  let module := reset (mkAdc 0 0 0 0 (replicate 32 0)) in
  exists r module',
    unpack_adc {[ "VADC" := [0xffffffff; 0x00051abc] ]} "VADC" module
    = Done (r, module') /\
    Forall (fun x => x = Vme.NONE \/ 0 <= x < 2 ^ 12) (data module').
Proof.
  intros module.
  destruct (unpack_adc_keeps_range
              {[ "VADC" := [0xffffffff; 0x00051abc] ]} "VADC" module)
    as (r & m' & Hrun & _ & Hrange).
  - reflexivity.
  - change (data module) with (replicate 32 Vme.NONE).
    apply Forall_replicate. left. reflexivity.
  - exists r, m'. split; [exact Hrun|exact Hrange].
Defined.

(** X7. A record is reset and a bank unpacked into it: a channel is valid
    afterwards exactly when the bank has a DATA word naming it. *)
Theorem valid_iff_data_word (event : gmap string (list Z)) (bank : string)
    (words : list Z) (module : Adc) (j : nat) :
  wf module ->
  FindBank event bank = Some words ->
  (j < N_CH)%nat ->
  exists r module' x,
    unpack_adc event bank (reset module) = Done (r, module') /\
    data module' !! j = Some x /\
    (Vme.is_valid x = true <->
     exists w, w ∈ words /\ adc_type w = DATA_BITS /\
               Z.to_nat (adc_channel w) = j).
Proof.
  intros Hwf Hfind Hj.
  destruct (ResetTheorems.reset_data_none module Hwf) as (Hdata & Hwfr).
  unfold unpack_adc. rewrite Hfind.
  destruct (unpack_adc_loop_spec words bank true (reset module) Hwfr)
    as (m' & Hloop & _).
  destruct (last_occurrence
              (fun w => (adc_type w =? DATA_BITS)
                        && (Z.to_nat (adc_channel w) =? j)%nat) words)
    as [Hnone|(before & w & after & Hwords & Hw & Hafter)].
  - exists (true && forallb known_type words), m', Vme.NONE.
    split; [exact Hloop|]. split.
    + rewrite (scan_unwritten (fun m => data m !! j) _ _ (buffer_channel j)
                 words bank true _ (reset module) m' Hwfr Hnone Hloop).
      rewrite Hdata. apply lookup_replicate_2. exact Hj.
    + split; [discriminate|].
      intros (w & Hin & Ht & Hc). specialize (Hnone w Hin).
      apply Z.eqb_eq in Ht. apply Nat.eqb_eq in Hc.
      rewrite Ht, Hc in Hnone. discriminate.
  - exists (true && forallb known_type words), m', (adc_value w).
    split; [exact Hloop|]. subst words. split.
    + exact (scan_last_writer (fun m => data m !! j) _ _ (buffer_channel j)
               before after w bank true _ (reset module) m' Hwfr Hw Hafter
               Hloop).
    + split.
      * intros _. exists w. apply andb_true_iff in Hw as [Ht Hc].
        apply Z.eqb_eq in Ht. apply Nat.eqb_eq in Hc.
        split; [|auto]. apply elem_of_app. right. left.
      * intros _. apply VmeTheorems.is_valid_true_iff.
        pose proof (adc_value_bounds w). unfold Vme.NONE. lia.
Qed.

Lemma valid_iff_data_word_witness :
  let words := [0x00051abc; 0x02000440] in
  exists r module' x,
    unpack_adc {[ "VADC" := words ]} "VADC"
               (reset (mkAdc 0 0 0 0 (replicate 32 0))) = Done (r, module') /\
    data module' !! 5%nat = Some x /\
    Vme.is_valid x = true.
Proof.
  intros words.
  destruct (valid_iff_data_word {[ "VADC" := words ]} "VADC" words
              (mkAdc 0 0 0 0 (replicate 32 0)) 5)
    as (r & m' & x & Hrun & Hx & Hiff).
  - reflexivity.
  - vm_compute. reflexivity.
  - unfold N_CH. lia.
  - exists r, m', x. split; [exact Hrun|]. split; [exact Hx|].
    apply Hiff. exists 0x00051abc. split; [left|]. split; reflexivity.
Defined.

(** X8. Unpacking the same bank of the same event a second time changes
    nothing: the record [unpack_adc] leaves is left as it is by a second
    call, which returns the same result. *)
Theorem unpack_adc_idempotent (event : gmap string (list Z)) (bank : string)
    (module module' : Adc) (r : bool) :
  wf module ->
  unpack_adc event bank module = Done (r, module') ->
  unpack_adc event bank module' = Done (r, module').
Proof.
  intros Hwf. unfold unpack_adc.
  destruct (FindBank event bank) as [words|]; [|intros [= <- <-]; reflexivity].
  intros H1.
  destruct (unpack_adc_loop_spec words bank true module Hwf)
    as (m1 & Hloop1 & Hwf1).
  rewrite H1 in Hloop1. injection Hloop1 as -> <-.
  destruct (unpack_adc_loop_spec words bank true module' Hwf1)
    as (m2 & Hloop2 & _).
  rewrite Hloop2. f_equal. f_equal.
  pose proof (scan_twice n_present _ _ buffer_n_present
                words bank true true _ _ module module' m2 Hwf H1 Hloop2)
    as Hn.
  pose proof (scan_twice count _ _ buffer_count
                words bank true true _ _ module module' m2 Hwf H1 Hloop2)
    as Hc.
  pose proof (scan_twice overflow _ _ buffer_overflow
                words bank true true _ _ module module' m2 Hwf H1 Hloop2)
    as Ho.
  pose proof (scan_twice underflow _ _ buffer_underflow
                words bank true true _ _ module module' m2 Hwf H1 Hloop2)
    as Hu.
  assert (Hd : data m2 = data module').
  { apply list_eq. intros j.
    exact (scan_twice (fun m => data m !! j) _ _ (buffer_channel j)
             words bank true true _ _ module module' m2 Hwf H1 Hloop2). }
  destruct m2, module'. cbn in *. congruence.
Qed.

Lemma unpack_adc_idempotent_witness :
  let event : gmap string (list Z) :=
    {[ "VADC" := [0x00051abc; 0x02000440; 0x01000000; 0x04000007] ]} in
  exists module',
    unpack_adc event "VADC" (reset (mkAdc 0 0 0 0 (replicate 32 0)))
    = Done (false, module') /\
    unpack_adc event "VADC" module' = Done (false, module').
Proof.
  intros event. eexists. split; [vm_compute; reflexivity|].
  apply (unpack_adc_idempotent event "VADC"
           (reset (mkAdc 0 0 0 0 (replicate 32 0)))).
  - reflexivity.
  - vm_compute. reflexivity.
Defined.

End ScanTheorems.

(** ** Derived quantities and the array utilities *)

Module FunctionsTheorems.
Import Functions.

(** The sum of the valid entries of an array of Samples, in magnitude, is
    at most [2 ^ 15] for each entry. *)
Lemma calculate_sum_bound (values : list Z) :
  Forall Vme.is_sample values ->
  - (2 ^ 15 * Z.of_nat (length values))
  <= Utils.calculate_sum values
  <= 2 ^ 15 * Z.of_nat (length values).
Proof.
  rewrite UtilsTheorems.calculate_sum_filter.
  induction 1 as [|x l Hx _ IH]; cbn [List.filter foldr length]; [lia|].
  unfold Vme.is_sample in Hx.
  destruct (Utils.is_valid x); cbn [foldr]; lia.
Qed.

(** X10. On arrays of Samples with at most [2 ^ 37] entries in all, every
    sum the loop forms (the sum over each prefix) is an integer of magnitude
    at most [2 ^ 52], so the [double] that accumulates it holds it exactly;
    there, [calculate_sum]
    over two arrays put end to end is the sum of the sums; over no values,
    or over values that are all the "no data" marker, it is 0 and not the
    marker. *)
Theorem calculate_sum_app (values1 values2 : list Z) :
  Forall Vme.is_sample values1 ->
  Forall Vme.is_sample values2 ->
  Z.of_nat (length (values1 ++ values2)) <= 2 ^ 37 ->
  Utils.calculate_sum (values1 ++ values2)
  = Utils.calculate_sum values1 + Utils.calculate_sum values2 /\
  (forall k : nat,
      - 2 ^ 52 <= Utils.calculate_sum (take k (values1 ++ values2)) <= 2 ^ 52) /\
  Utils.calculate_sum [] = 0 /\
  (forall n : nat, Utils.calculate_sum (replicate n Utils.NO_DATA) = 0).
Proof.
  intros Hs1 Hs2 Hlen. split; [|split; [|split]].
  - rewrite !UtilsTheorems.calculate_sum_filter.
    rewrite List.filter_app, foldr_app.
    generalize (List.filter Utils.is_valid values2).
    induction (List.filter Utils.is_valid values1) as [|x l IH];
      intros l2; cbn [foldr].
    + lia.
    + rewrite IH. lia.
  - intros k.
    pose proof (calculate_sum_bound (take k (values1 ++ values2))
                  ltac:(apply Forall_take, Forall_app; split; assumption))
      as Hb.
    rewrite length_take in Hb.
    change (2 ^ 52) with (2 ^ 15 * 2 ^ 37). lia.
  - reflexivity.
  - intros n. rewrite UtilsTheorems.calculate_sum_filter.
    induction n as [|n IH]; [reflexivity|exact IH].
Qed.

Lemma calculate_sum_app_witness :
  Utils.calculate_sum ([300; 200; -1] ++ [100; 1; 0; -1]) = 500 + 101.
Proof.
  apply (calculate_sum_app [300; 200; -1] [100; 1; 0; -1]).
  - repeat constructor; unfold Vme.is_sample; lia.
  - repeat constructor; unfold Vme.is_sample; lia.
  - cbn. lia.
Defined.

Lemma store_at_Some {T : Type} (array : list T) (i : nat) (x y : T) :
  array !! i = Some x -> store_at array i y = Some (<[i := y]> array).
Proof.
  intros Hi. apply lookup_lt_Some in Hi. unfold store_at.
  replace (i <? length array)%nat with true
    by (symmetry; apply Nat.ltb_lt; exact Hi).
  reflexivity.
Qed.

Lemma store_at_None {T : Type} (array : list T) (i : nat) (y : T) :
  array !! i = None -> store_at array i y = None.
Proof.
  intros Hi. apply lookup_ge_None in Hi. unfold store_at.
  replace (i <? length array)%nat with false
    by (symmetry; apply Nat.ltb_ge; exact Hi).
  reflexivity.
Qed.

(** A loop whose body replaces the element at its index by a function of
    the index and of that element. *)
Section Pointwise.

Context {T : Type}.
Variable body : nat -> list T -> option (list T).
Variable g : nat -> T -> option T.
Hypothesis body_Some :
  forall i array x,
    array !! i = Some x ->
    body i array = match g i x with
                   | Some y => Some (<[i := y]> array)
                   | None => None
                   end.
Hypothesis body_None : forall i array, array !! i = None -> body i array = None.

Lemma for_loop_pointwise (todo k : nat) (array : list T) :
  (k + todo <= length array)%nat ->
  (forall i x, (k <= i < k + todo)%nat -> array !! i = Some x ->
               is_Some (g i x)) ->
  exists array',
    for_loop body k todo array = Some array' /\
    length array' = length array /\
    (forall i x, (k <= i < k + todo)%nat -> array !! i = Some x ->
                 array' !! i = g i x) /\
    (forall i, ~ (k <= i < k + todo)%nat -> array' !! i = array !! i).
Proof.
  revert k array. induction todo as [|todo IH]; intros k array Hlen Hdef;
    cbn [for_loop].
  - exists array. split; [reflexivity|]. split; [reflexivity|].
    split; [intros; lia|reflexivity].
  - destruct (lookup_lt_is_Some_2 array k ltac:(lia)) as [xk Hk].
    rewrite (body_Some k array xk Hk).
    destruct (Hdef k xk ltac:(lia) Hk) as [y Hy]. rewrite Hy.
    destruct (IH (S k) (<[k := y]> array)) as (a' & Hrun & Hl & Hin & Hout).
    + rewrite length_insert. lia.
    + intros i x Hi Hx. rewrite list_lookup_insert_ne in Hx by lia.
      apply (Hdef i x); [lia|exact Hx].
    + exists a'. split; [exact Hrun|].
      split; [rewrite Hl; apply length_insert|]. split.
      * intros i x Hi Hx. destruct (decide (i = k)) as [->|Hne].
        -- rewrite Hout by lia. rewrite list_lookup_insert_eq by lia.
           congruence.
        -- apply Hin; [lia|]. rewrite list_lookup_insert_ne by lia. exact Hx.
      * intros i Hi. rewrite Hout by lia. apply list_lookup_insert_ne. lia.
Qed.

(** The loop runs past the end of the array. *)
Lemma for_loop_overrun (todo k : nat) (array : list T) :
  (k <= length array < k + todo)%nat ->
  for_loop body k todo array = None.
Proof.
  revert k array. induction todo as [|todo IH]; intros k array Hlen;
    cbn [for_loop]; [lia|].
  destruct (array !! k) as [xk|] eqn:Hk.
  - rewrite (body_Some k array xk Hk). destruct (g k xk) as [y|]; [|reflexivity].
    apply IH. rewrite length_insert. apply lookup_lt_Some in Hk. lia.
  - rewrite (body_None k array Hk). reflexivity.
Qed.

(** The function is not defined at an index the loop reaches. *)
Lemma for_loop_undefined (todo k : nat) (array : list T) (i : nat) (x : T) :
  (k <= i < k + todo)%nat ->
  array !! i = Some x ->
  g i x = None ->
  for_loop body k todo array = None.
Proof.
  revert k array. induction todo as [|todo IH]; intros k array Hi Hx Hg;
    cbn [for_loop]; [lia|].
  destruct (array !! k) as [xk|] eqn:Hk.
  - rewrite (body_Some k array xk Hk).
    destruct (g k xk) as [y|] eqn:Hy; [|reflexivity].
    destruct (decide (i = k)) as [->|Hne]; [congruence|].
    apply IH; [lia| |exact Hg].
    rewrite list_lookup_insert_ne by lia. exact Hx.
  - rewrite (body_None k array Hk). reflexivity.
Qed.

(** What a loop that returns has done. *)
Lemma for_loop_returned (todo k : nat) (array array' : list T) :
  (k <= length array)%nat ->
  for_loop body k todo array = Some array' ->
  (k + todo <= length array)%nat /\
  length array' = length array /\
  (forall i x, (k <= i < k + todo)%nat -> array !! i = Some x ->
               array' !! i = g i x) /\
  (forall i, ~ (k <= i < k + todo)%nat -> array' !! i = array !! i).
Proof.
  revert k array. induction todo as [|todo IH]; intros k array Hk;
    cbn [for_loop].
  - intros [= <-]. split; [lia|]. split; [reflexivity|].
    split; [intros; lia|reflexivity].
  - destruct (array !! k) as [xk|] eqn:Hxk;
      [|rewrite (body_None k array Hxk); discriminate].
    rewrite (body_Some k array xk Hxk).
    destruct (g k xk) as [y|] eqn:Hy; [|discriminate].
    intros Hrun. apply lookup_lt_Some in Hxk as Hlt.
    destruct (IH (S k) (<[k := y]> array)
                 ltac:(rewrite length_insert; lia) Hrun)
      as (Hlen & Hl & Hin & Hout).
    rewrite length_insert in Hlen, Hl.
    split; [lia|]. split; [exact Hl|]. split.
    + intros i x Hi Hx. destruct (decide (i = k)) as [->|Hne].
      * rewrite Hout by lia. rewrite list_lookup_insert_eq by lia. congruence.
      * apply Hin; [lia|]. rewrite list_lookup_insert_ne by lia. exact Hx.
    + intros i Hi. rewrite Hout by lia. apply list_lookup_insert_ne. lia.
Qed.

End Pointwise.

Lemma index_fill_from_lookup (range : list Z) (start offset : Z) (i : nat) :
  (i < length range)%nat ->
  index_fill_from start range offset !! i = Some (start + Z.of_nat i + offset).
Proof.
  revert start i. induction range as [|x range IH]; intros start i Hi;
    cbn [length] in Hi; [lia|].
  destruct i as [|i]; cbn [index_fill_from lookup list_lookup].
  - f_equal. lia.
  - rewrite IH by lia. f_equal. lia.
Qed.

Lemma index_fill_from_length (range : list Z) (start offset : Z) :
  length (index_fill_from start range offset) = length range.
Proof.
  revert start. induction range as [|x range IH]; intros start;
    cbn [index_fill_from length]; [reflexivity|]. rewrite IH. reflexivity.
Qed.

(** X11. For ints [n] and [offset], on an array whose length is below
    [2 ^ 31], and with every [i + offset] the loops can reach at most
    [INT_MAX]: the counter [i] and every sum [i + offset] are ints (no
    addition of the loops overflows), [index_fill] stores [i + offset] at every index [i] of the range
    and keeps its length. [index_fill_n] does so at the indices below [n]
    and leaves the others alone; over the whole array it gives what
    [index_fill] gives, with [n] zero or less it changes nothing, and with
    [n] beyond the array it writes past the end. *)
Theorem index_fill_spec (array : list Z) (n offset : Z) :
  is_int n ->
  is_int offset ->
  Z.of_nat (length array) < 2 ^ 31 ->
  offset + Z.max n (Z.of_nat (length array)) <= 2 ^ 31 ->
  (forall i : nat,
      Z.of_nat i < Z.max n (Z.of_nat (length array)) ->
      is_int (Z.of_nat i) /\ is_int (Z.of_nat i + offset)) /\
  length (index_fill array offset) = length array /\
  (forall i : nat, (i < length array)%nat ->
                   index_fill array offset !! i = Some (Z.of_nat i + offset)) /\
  index_fill_n array (Z.of_nat (length array)) offset
  = Some (index_fill array offset) /\
  (n <= 0 -> index_fill_n array n offset = Some array) /\
  (0 <= n <= Z.of_nat (length array) ->
   exists array',
     index_fill_n array n offset = Some array' /\
     length array' = length array /\
     (forall i : nat, (i < Z.to_nat n)%nat ->
                      array' !! i = Some (Z.of_nat i + offset)) /\
     (forall i : nat, (Z.to_nat n <= i)%nat -> array' !! i = array !! i)) /\
  (Z.of_nat (length array) < n -> index_fill_n array n offset = None).
Proof.
  intros Hint_n Hint_offset Hlength Hsum.
  split; [intros i Hi; unfold is_int in *; lia|].
  set (body := fun (i : nat) (a : list Z) => store_at a i (Z.of_nat i + offset)).
  set (g := fun (i : nat) (_ : Z) => Some (Z.of_nat i + offset)).
  assert (HSome : forall i a x, a !! i = Some x ->
            body i a = match g i x with
                       | Some y => Some (<[i := y]> a)
                       | None => None
                       end)
    by (intros i a x Hx; exact (store_at_Some a i x _ Hx)).
  assert (HNone : forall i a, a !! i = None -> body i a = None)
    by (intros i a Hx; exact (store_at_None a i _ Hx)).
  assert (Hwithin : forall m : nat, (m <= length array)%nat ->
            exists array',
              for_loop body 0 m array = Some array' /\
              length array' = length array /\
              (forall i : nat, (i < m)%nat ->
                               array' !! i = Some (Z.of_nat i + offset)) /\
              (forall i : nat, (m <= i)%nat -> array' !! i = array !! i)).
  { intros m Hm.
    destruct (for_loop_pointwise body g HSome m 0 array)
      as (a' & Hrun & Hl & Hin & Hout); [lia|intros; eexists; reflexivity|].
    exists a'. split; [exact Hrun|]. split; [exact Hl|]. split.
    - intros i Hi.
      destruct (lookup_lt_is_Some_2 array i ltac:(lia)) as [x Hx].
      exact (Hin i x ltac:(lia) Hx).
    - intros i Hi. apply Hout. lia. }
  split; [apply index_fill_from_length|].
  split; [intros i Hi; unfold index_fill;
          rewrite index_fill_from_lookup by exact Hi; f_equal; lia|].
  split; [|split; [|split]].
  - unfold index_fill_n. rewrite Nat2Z.id.
    destruct (Hwithin (length array) ltac:(lia)) as (a' & Hrun & Hl & Hin & _).
    fold body. rewrite Hrun. f_equal. apply list_eq. intros i.
    destruct (decide (i < length array)%nat) as [Hi|Hi].
    + rewrite Hin by exact Hi. unfold index_fill.
      rewrite index_fill_from_lookup by exact Hi. f_equal; lia.
    + rewrite (lookup_ge_None_2 a') by lia.
      rewrite lookup_ge_None_2
        by (unfold index_fill; rewrite index_fill_from_length; lia).
      reflexivity.
  - intros Hn. unfold index_fill_n. replace (Z.to_nat n) with 0%nat by lia.
    reflexivity.
  - intros Hn. unfold index_fill_n. fold body. apply Hwithin. lia.
  - intros Hn. unfold index_fill_n. fold body.
    apply (for_loop_overrun body g HSome HNone). lia.
Qed.

Lemma index_fill_spec_witness :
  index_fill_n [9; 9; 9; 9] 5 0 = None /\
  exists array',
    index_fill_n [9; 9; 9; 9] 2 5 = Some array' /\
    array' !! 1%nat = Some 6 /\
    array' !! 2%nat = Some 9.
Proof.
  destruct (index_fill_spec [9; 9; 9; 9] 5 0)
    as (_ & _ & _ & _ & _ & _ & Hover);
    [unfold is_int; lia|unfold is_int; lia|cbn; lia|cbn; lia|].
  destruct (index_fill_spec [9; 9; 9; 9] 2 5)
    as (_ & _ & _ & _ & _ & Hin & _);
    [unfold is_int; lia|unfold is_int; lia|cbn; lia|cbn; lia|].
  split; [apply Hover; cbn; lia|].
  destruct (Hin ltac:(cbn; lia)) as (a' & Hrun & _ & Hlow & Hhigh).
  exists a'. split; [exact Hrun|].
  rewrite (Hlow 1%nat) by lia. rewrite (Hhigh 2%nat) by lia.
  split; reflexivity.
Defined.

Section ChannelMap.

Context {T : Type}.
Variable indices : list Z.
Variable input : list T.

(** The body of the loop of [channel_map_from_array], and the value it
    stores at index [i]. *)
Local Abbreviation map_body :=
  (fun (i : nat) (output : list T) =>
     match indices !! i with
     | None => None
     | Some index =>
         if index <? 0 then None
         else match input !! Z.to_nat index with
              | None => None
              | Some x => store_at output i x
              end
     end).

Local Abbreviation map_value :=
  (fun (i : nat) (_ : T) =>
     match indices !! i with
     | None => None
     | Some index => if index <? 0 then None else input !! Z.to_nat index
     end).

Lemma map_body_Some (i : nat) (output : list T) (x : T) :
  output !! i = Some x ->
  map_body i output = match map_value i x with
                      | Some y => Some (<[i := y]> output)
                      | None => None
                      end.
Proof.
  intros Hx. cbv beta.
  destruct (indices !! i) as [index|]; [|reflexivity].
  destruct (index <? 0); [reflexivity|].
  destruct (input !! Z.to_nat index) as [y|]; [|reflexivity].
  exact (store_at_Some output i x y Hx).
Qed.

Lemma map_body_None (i : nat) (output : list T) :
  output !! i = None -> map_body i output = None.
Proof.
  intros Hx. cbv beta.
  destruct (indices !! i) as [index|]; [|reflexivity].
  destruct (index <? 0); [reflexivity|].
  destruct (input !! Z.to_nat index) as [y|]; [|reflexivity].
  exact (store_at_None output i y Hx).
Qed.

(** X12. [channel_map_from_array] returns exactly when [output] and
    [indices] have [numch] entries and each of the first [numch] indices
    lies inside [input]; a negative index, or one at or beyond the length of
    [input], makes it read outside [input]. When it returns, entry [i] of
    [output] below [numch] holds [input[indices[i]]], and the entries from
    [numch] on are kept. *)
Theorem channel_map_from_array_spec (output : list T) (numch : Z) :
  ((Z.to_nat numch <= length output)%nat ->
   (Z.to_nat numch <= length indices)%nat ->
   (forall (i : nat) index, (i < Z.to_nat numch)%nat ->
       indices !! i = Some index -> 0 <= index < Z.of_nat (length input)) ->
   exists output', channel_map_from_array output numch indices input
                   = Some output') /\
  (forall (i : nat) index,
      (i < Z.to_nat numch)%nat -> (i < length output)%nat ->
      indices !! i = Some index ->
      index < 0 \/ Z.of_nat (length input) <= index ->
      channel_map_from_array output numch indices input = None) /\
  (forall output',
      channel_map_from_array output numch indices input = Some output' ->
      (Z.to_nat numch <= length output)%nat /\
      length output' = length output /\
      (forall (i : nat), (i < Z.to_nat numch)%nat ->
          exists index, indices !! i = Some index /\ 0 <= index /\
                        output' !! i = input !! Z.to_nat index /\
                        is_Some (output' !! i)) /\
      (forall (i : nat), (Z.to_nat numch <= i)%nat ->
          output' !! i = output !! i)).
Proof.
  unfold channel_map_from_array. split; [|split].
  - intros Hout Hind Hrange.
    destruct (for_loop_pointwise map_body map_value map_body_Some
                (Z.to_nat numch) 0 output) as (o' & Hrun & _); [lia| |eauto].
    intros i x Hi _. cbv beta.
    destruct (lookup_lt_is_Some_2 indices i ltac:(lia)) as [index Hindex].
    rewrite Hindex. specialize (Hrange i index ltac:(lia) Hindex).
    replace (index <? 0) with false by (symmetry; apply Z.ltb_ge; lia).
    apply lookup_lt_is_Some_2. lia.
  - intros i index Hi Hio Hindex Hbad.
    destruct (lookup_lt_is_Some_2 output i Hio) as [x Hx].
    apply (for_loop_undefined map_body map_value map_body_Some map_body_None
             (Z.to_nat numch) 0 output i x); [lia|exact Hx|].
    cbv beta. rewrite Hindex.
    destruct (Z.ltb_spec index 0); [reflexivity|].
    apply lookup_ge_None_2. lia.
  - intros output' Hrun.
    destruct (for_loop_returned map_body map_value map_body_Some map_body_None
                (Z.to_nat numch) 0 output output' ltac:(lia) Hrun)
      as (Hlen & Hl & Hin & Hout).
    split; [lia|]. split; [exact Hl|]. split.
    + intros i Hi.
      destruct (lookup_lt_is_Some_2 output i ltac:(lia)) as [x Hx].
      specialize (Hin i x ltac:(lia) Hx). cbv beta in Hin.
      assert (Hsome : is_Some (output' !! i))
        by (apply lookup_lt_is_Some_2; lia).
      destruct (indices !! i) as [index|];
        [|rewrite Hin in Hsome; destruct Hsome; discriminate].
      exists index. split; [reflexivity|].
      destruct (Z.ltb_spec index 0);
        [rewrite Hin in Hsome; destruct Hsome; discriminate|].
      split; [lia|]. split; [exact Hin|exact Hsome].
    + intros i Hi. apply Hout. lia.
Qed.

End ChannelMap.

Lemma channel_map_from_array_spec_witness :
  channel_map_from_array [0; 0; 0; 0; 0] 5 [3; 2; 1; 4; 0] [1; 2; 3; 4; 5]
  = Some [4; 3; 2; 5; 1] /\
  channel_map_from_array [0; 0; 0; 0; 0] 5 [3; 2; 1; 5; 0] [1; 2; 3; 4; 5]
  = None.
Proof.
  split; [reflexivity|].
  apply (proj1 (proj2 (channel_map_from_array_spec [3; 2; 1; 5; 0]
                         [1; 2; 3; 4; 5] [0; 0; 0; 0; 0] 5)) 3%nat 5);
    [cbn; lia|cbn; lia|reflexivity|cbn; lia].
Defined.

(** X13. Mapping through the indices [index_fill] writes is the identity:
    with the index array filled by [index_fill] at offset 0,
    [channel_map_from_array] copies the [numch] entries of [input] to the
    front of [output] in order. *)
Theorem channel_map_index_fill {T : Type} (output input : list T)
    (indices : list Z) :
  length indices = length input ->
  (length input <= length output)%nat ->
  channel_map_from_array output (Z.of_nat (length input))
                         (index_fill indices 0) input
  = Some (input ++ drop (length input) output).
Proof.
  intros Hind Hout.
  assert (Hfi : forall i : nat, (i < length input)%nat ->
            index_fill indices 0 !! i = Some (Z.of_nat i)).
  { intros i Hi. unfold index_fill.
    rewrite index_fill_from_lookup by lia. f_equal. lia. }
  unfold channel_map_from_array. rewrite Nat2Z.id.
  destruct (for_loop_pointwise _ _ (map_body_Some (index_fill indices 0) input)
              (length input) 0 output) as (o' & Hrun & Hl & Hin & Hrest).
  - lia.
  - intros i x Hi _. cbv beta. rewrite Hfi by lia.
    replace (Z.of_nat i <? 0) with false by (symmetry; apply Z.ltb_ge; lia).
    rewrite Nat2Z.id. apply lookup_lt_is_Some_2. lia.
  - rewrite Hrun. f_equal. apply list_eq. intros i.
    destruct (decide (i < length input)%nat) as [Hi|Hi].
    + destruct (lookup_lt_is_Some_2 output i ltac:(lia)) as [x Hx].
      rewrite (Hin i x ltac:(lia) Hx). cbv beta. rewrite Hfi by exact Hi.
      replace (Z.of_nat i <? 0) with false by (symmetry; apply Z.ltb_ge; lia).
      rewrite Nat2Z.id. symmetry. apply lookup_app_l. exact Hi.
    + rewrite Hrest by lia. rewrite lookup_app_r by lia.
      rewrite lookup_drop. f_equal. lia.
Qed.

Lemma channel_map_index_fill_witness :
  channel_map_from_array [0; 0; 0; 0] 3 (index_fill [7; 7; 7] 0) [10; 20; 30]
  = Some [10; 20; 30; 0].
Proof.
  apply (channel_map_index_fill [0; 0; 0; 0] [10; 20; 30] [7; 7; 7]).
  - reflexivity.
  - cbn. lia.
Defined.

Section Comparators.

Context {T : Type}.
Variable valid : T -> bool.
Variable greater : T -> T -> bool.
Variable less : T -> T -> bool.

(** X14. When [std::greater<T>] is a strict weak ordering, so is
    [greater_and_valid<T>]: it is irreflexive, asymmetric and transitive,
    and being incomparable is transitive. It puts every valid value before
    every invalid one, and no invalid value before anything; the invalid
    values are incomparable with one another. *)
Theorem greater_and_valid_strict_weak_order :
  (forall x, greater x x = false) ->
  (forall x y z, greater x y = true -> greater y z = true ->
                 greater x z = true) ->
  (forall x y z,
      greater x y = false -> greater y x = false ->
      greater y z = false -> greater z y = false ->
      greater x z = false /\ greater z x = false) ->
  let comp := greater_and_valid valid greater in
  (forall x, comp x x = false) /\
  (forall x y, comp x y = true -> comp y x = false) /\
  (forall x y z, comp x y = true -> comp y z = true -> comp x z = true) /\
  (forall x y z,
      comp x y = false -> comp y x = false ->
      comp y z = false -> comp z y = false ->
      comp x z = false /\ comp z x = false) /\
  (forall x y, valid x = true -> valid y = false -> comp x y = true) /\
  (forall x y, valid x = false -> comp x y = false).
Proof.
  intros Hirr Htrans Hincomp comp. subst comp. unfold greater_and_valid.
  assert (Hasym : forall x y, greater x y = true -> greater y x = false).
  { intros x y Hxy. destruct (greater y x) eqn:Hyx; [|reflexivity].
    rewrite <- (Hirr x). symmetry. exact (Htrans x y x Hxy Hyx). }
  split; [|split; [|split; [|split; [|split]]]].
  - intros x. destruct (valid x); cbn [negb]; [apply Hirr|reflexivity].
  - intros x y. destruct (valid x), (valid y); cbn [negb]; auto; discriminate.
  - intros x y z.
    destruct (valid x), (valid y), (valid z); cbn [negb];
      try discriminate; auto. apply Htrans.
  - intros x y z.
    destruct (valid x), (valid y), (valid z); cbn [negb];
      try discriminate; auto. apply Hincomp.
  - intros x y -> ->. reflexivity.
  - intros x y ->. reflexivity.
Qed.

(** X15. [less_and_valid<T>] puts every invalid value before every value,
    itself included: at an invalid value it is not irreflexive, so it is not
    the strict weak ordering [std::sort] asks for, unlike
    [greater_and_valid<T>]. It is transitive when [std::less<T>] is, never
    puts a valid value before an invalid one, and agrees with
    [std::less<T>] on valid values. *)
Theorem less_and_valid_invalid_first :
  (forall x y z, less x y = true -> less y z = true -> less x z = true) ->
  let comp := less_and_valid valid less in
  (forall x, valid x = false ->
             comp x x = true /\ greater_and_valid valid greater x x = false) /\
  (forall x y, valid x = false -> comp x y = true) /\
  (forall x y, valid x = true -> valid y = false -> comp x y = false) /\
  (forall x y, valid x = true -> valid y = true -> comp x y = less x y) /\
  (forall x y z, comp x y = true -> comp y z = true -> comp x z = true).
Proof.
  intros Htrans comp. subst comp. unfold less_and_valid, greater_and_valid.
  split; [|split; [|split; [|split]]].
  - intros x ->. split; reflexivity.
  - intros x y ->. reflexivity.
  - intros x y -> ->. reflexivity.
  - intros x y -> ->. reflexivity.
  - intros x y z.
    destruct (valid x), (valid y), (valid z); cbn [negb];
      try discriminate; auto. apply Htrans.
Qed.

End Comparators.

Lemma greater_and_valid_strict_weak_order_witness :
  greater_and_valid Vme.is_valid Z.gtb 12 Vme.NONE = true /\
  greater_and_valid Vme.is_valid Z.gtb (-13) Vme.NONE = true /\
  greater_and_valid Vme.is_valid Z.gtb Vme.NONE Vme.NONE = false.
Proof.
  destruct (greater_and_valid_strict_weak_order Vme.is_valid Z.gtb)
    as (Hirr & _ & _ & _ & Hvalid & _).
  - intros x. rewrite Z.gtb_ltb. apply Z.ltb_irrefl.
  - intros x y z. rewrite !Z.gtb_ltb, !Z.ltb_lt. lia.
  - intros x y z. rewrite !Z.gtb_ltb, !Z.ltb_ge. lia.
  - split; [apply Hvalid; reflexivity|].
    split; [apply Hvalid; reflexivity|apply Hirr].
Defined.

Lemma less_and_valid_invalid_first_witness :
  less_and_valid Vme.is_valid Z.ltb Vme.NONE Vme.NONE = true /\
  less_and_valid Vme.is_valid Z.ltb Vme.NONE (-13) = true.
Proof.
  destruct (less_and_valid_invalid_first Vme.is_valid Z.gtb Z.ltb)
    as (Hrefl & Hfirst & _).
  - intros x y z. rewrite !Z.ltb_lt. lia.
  - split; [apply Hrefl; reflexivity|apply Hfirst; reflexivity].
Defined.

Section Calibration.

Context {T : Type}.
Variable valid : T -> bool.
Variable no_data : T.
Variable less : T -> T -> bool.
Variable zero : T.
Variable add : T -> T -> T.
Variable mul : T -> T -> T.
Variable pow : T -> Z -> T.

(** A loop whose body reads the element at its index and stores there, or
    not at all, a function [f] of the index and the element. *)
Lemma guarded_body (f : nat -> T -> option T)
    (body : nat -> list T -> option (list T)) :
  (forall i array,
      body i array
      = match array !! i with
        | None => None
        | Some x => match f i x with
                    | None => None
                    | Some y => Some (<[i := y]> array)
                    end
        end) ->
  (forall i array x,
      array !! i = Some x ->
      body i array = match f i x with
                     | Some y => Some (<[i := y]> array)
                     | None => None
                     end) /\
  (forall i array, array !! i = None -> body i array = None).
Proof.
  intros Hbody. split.
  - intros i array x Hx. rewrite Hbody, Hx. destruct (f i x); reflexivity.
  - intros i array Hx. rewrite Hbody, Hx. reflexivity.
Qed.

Lemma pedestal_body (pedestal : list T) (i : nat) (array : list T) :
  match array !! i, pedestal !! i with
  | Some x, Some p =>
      if less x p then store_at array i no_data else Some array
  | _, _ => None
  end
  = match array !! i with
    | None => None
    | Some x =>
        match
          match pedestal !! i with
          | Some p => Some (pedestal_subtract_value no_data less x p)
          | None => None
          end
        with
        | None => None
        | Some y => Some (<[i := y]> array)
        end
    end.
Proof.
  destruct (array !! i) as [x|] eqn:Hx; [|reflexivity].
  destruct (pedestal !! i) as [p|]; [|reflexivity].
  unfold pedestal_subtract_value. destruct (less x p).
  - exact (store_at_Some array i x no_data Hx).
  - rewrite list_insert_id by exact Hx. reflexivity.
Qed.

(** X16. [pedestal_subtract] on an array returns exactly when the array and
    the pedestals have [length] entries. Entry [i] below [length] is then
    what the single-value [pedestal_subtract] makes of it with pedestal
    [i]: the "no data" marker when it is below the pedestal, itself
    otherwise; the entries from [length] on are kept. A second pass with
    the same pedestals changes nothing. *)
Theorem pedestal_subtract_idempotent (array : list T) (length : Z)
    (pedestal : list T) :
  ((Z.to_nat length <= List.length array)%nat ->
   (Z.to_nat length <= List.length pedestal)%nat ->
   exists array',
     pedestal_subtract no_data less array length pedestal = Some array') /\
  (forall array',
      pedestal_subtract no_data less array length pedestal = Some array' ->
      (Z.to_nat length <= List.length array)%nat /\
      (Z.to_nat length <= List.length pedestal)%nat /\
      List.length array' = List.length array /\
      (forall (i : nat) x p,
          (i < Z.to_nat length)%nat ->
          array !! i = Some x -> pedestal !! i = Some p ->
          array' !! i = Some (pedestal_subtract_value no_data less x p)) /\
      (forall i : nat, (Z.to_nat length <= i)%nat ->
                       array' !! i = array !! i) /\
      pedestal_subtract no_data less array' length pedestal = Some array').
Proof.
  unfold pedestal_subtract.
  set (f := fun (i : nat) (x : T) =>
              match pedestal !! i with
              | Some p => Some (pedestal_subtract_value no_data less x p)
              | None => None
              end).
  destruct (guarded_body f _ (pedestal_body pedestal)) as (HSome & HNone).
  split.
  - intros Ha Hp.
    destruct (for_loop_pointwise _ f HSome (Z.to_nat length) 0 array)
      as (a' & Hrun & _); [lia| |eauto].
    intros i x Hi _. unfold f.
    destruct (lookup_lt_is_Some_2 pedestal i ltac:(lia)) as [p ->]. eauto.
  - intros array' Hrun.
    destruct (for_loop_returned _ f HSome HNone (Z.to_nat length) 0
                array array' ltac:(lia) Hrun) as (Hlen & Hl & Hin & Hout).
    assert (Hdef : forall i x, (0 <= i < 0 + Z.to_nat length)%nat ->
              array !! i = Some x -> is_Some (f i x)).
    { intros i x Hi Hx. rewrite <- (Hin i x Hi Hx).
      apply lookup_lt_is_Some_2. lia. }
    split; [lia|]. split; [|split; [exact Hl|split; [|split]]].
    + destruct (decide (Z.to_nat length <= List.length pedestal)%nat)
        as [Hp|Hp]; [exact Hp|exfalso].
      destruct (lookup_lt_is_Some_2 array (List.length pedestal) ltac:(lia))
        as [x Hx].
      destruct (Hdef (List.length pedestal) x ltac:(lia) Hx) as [y Hy].
      unfold f in Hy. rewrite lookup_ge_None_2 in Hy by lia. discriminate.
    + intros i x p Hi Hx Hp. rewrite (Hin i x ltac:(lia) Hx). unfold f.
      rewrite Hp. reflexivity.
    + intros i Hi. apply Hout. lia.
    + destruct (for_loop_pointwise _ f HSome (Z.to_nat length) 0 array')
        as (a2 & Hrun2 & Hl2 & Hin2 & Hout2); [lia| |].
      * intros i y Hi Hy.
        destruct (lookup_lt_is_Some_2 array i ltac:(lia)) as [x Hx].
        destruct (Hdef i x Hi Hx) as [z Hz]. unfold f in *.
        destruct (pedestal !! i); [eauto|discriminate].
      * rewrite Hrun2. f_equal. apply list_eq. intros i.
        destruct (decide (i < Z.to_nat length)%nat) as [Hi|Hi];
          [|rewrite Hout2 by lia; reflexivity].
        destruct (lookup_lt_is_Some_2 array i ltac:(lia)) as [x Hx].
        pose proof (Hin i x ltac:(lia) Hx) as Hi1.
        destruct (lookup_lt_is_Some_2 array' i ltac:(lia)) as [y Hy].
        rewrite (Hin2 i y ltac:(lia) Hy). rewrite Hy in Hi1. unfold f in *.
        destruct (pedestal !! i) as [p|]; [|discriminate].
        injection Hi1 as ->. rewrite Hy. f_equal.
        unfold pedestal_subtract_value.
        destruct (less x p) eqn:Hxp;
          [destruct (less no_data p); reflexivity|rewrite Hxp; reflexivity].
Qed.

Lemma linear_body (offset slope : list T) (i : nat) (array : list T) :
  match array !! i with
  | None => None
  | Some x =>
      if valid x then
        match offset !! i, slope !! i with
        | Some o, Some s => store_at array i (add o (mul x s))
        | _, _ => None
        end
      else Some array
  end
  = match array !! i with
    | None => None
    | Some x =>
        match
          (if valid x then
             match offset !! i, slope !! i with
             | Some o, Some s => Some (add o (mul x s))
             | _, _ => None
             end
           else Some x)
        with
        | None => None
        | Some y => Some (<[i := y]> array)
        end
    end.
Proof.
  destruct (array !! i) as [x|] eqn:Hx; [|reflexivity].
  destruct (valid x).
  - destruct (offset !! i) as [o|]; [|reflexivity].
    destruct (slope !! i) as [sl|]; [|reflexivity].
    exact (store_at_Some array i x _ Hx).
  - rewrite list_insert_id by exact Hx. reflexivity.
Qed.

Lemma quadratic_body (offset slope slope2 : list T) (i : nat)
    (array : list T) :
  match array !! i with
  | None => None
  | Some x =>
      if valid x then
        match offset !! i, slope !! i, slope2 !! i with
        | Some o, Some s, Some s2 =>
            store_at array i (add (add o (mul x s)) (mul (pow x 2) s2))
        | _, _, _ => None
        end
      else Some array
  end
  = match array !! i with
    | None => None
    | Some x =>
        match
          (if valid x then
             match offset !! i, slope !! i, slope2 !! i with
             | Some o, Some s, Some s2 =>
                 Some (add (add o (mul x s)) (mul (pow x 2) s2))
             | _, _, _ => None
             end
           else Some x)
        with
        | None => None
        | Some y => Some (<[i := y]> array)
        end
    end.
Proof.
  destruct (array !! i) as [x|] eqn:Hx; [|reflexivity].
  destruct (valid x).
  - destruct (offset !! i) as [o|]; [|reflexivity].
    destruct (slope !! i) as [sl|]; [|reflexivity].
    destruct (slope2 !! i) as [sl2|]; [|reflexivity].
    exact (store_at_Some array i x _ Hx).
  - rewrite list_insert_id by exact Hx. reflexivity.
Qed.

(** X17. [linear_calibrate] and [quadratic_calibrate] on an array return
    when the array and the variables have [length] entries. When they
    return, entry [i] below [length] is what the single-value function
    makes of it with the variables of index [i]; an entry that is not valid
    is left untouched, and so are the entries from [length] on. *)
Theorem calibrate_pointwise (array : list T) (length : Z)
    (offset slope slope2 : list T) :
  ((Z.to_nat length <= List.length array)%nat ->
   (Z.to_nat length <= List.length offset)%nat ->
   (Z.to_nat length <= List.length slope)%nat ->
   (Z.to_nat length <= List.length slope2)%nat ->
   exists array1 array2,
     linear_calibrate valid add mul array length offset slope = Some array1 /\
     quadratic_calibrate valid add mul pow array length offset slope slope2
     = Some array2) /\
  (forall array',
      linear_calibrate valid add mul array length offset slope = Some array' ->
      List.length array' = List.length array /\
      (forall (i : nat) x,
          (i < Z.to_nat length)%nat -> array !! i = Some x ->
          (valid x = false -> array' !! i = Some x) /\
          (forall o s, offset !! i = Some o -> slope !! i = Some s ->
                       array' !! i
                       = Some (linear_calibrate_value valid add mul x o s))) /\
      (forall i : nat, (Z.to_nat length <= i)%nat ->
                       array' !! i = array !! i)) /\
  (forall array',
      quadratic_calibrate valid add mul pow array length offset slope slope2
      = Some array' ->
      List.length array' = List.length array /\
      (forall (i : nat) x,
          (i < Z.to_nat length)%nat -> array !! i = Some x ->
          (valid x = false -> array' !! i = Some x) /\
          (forall o s s2,
              offset !! i = Some o -> slope !! i = Some s ->
              slope2 !! i = Some s2 ->
              array' !! i
              = Some (quadratic_calibrate_value valid add mul pow x o s s2))) /\
      (forall i : nat, (Z.to_nat length <= i)%nat ->
                       array' !! i = array !! i)).
Proof.
  unfold linear_calibrate, quadratic_calibrate.
  destruct (guarded_body _ _ (linear_body offset slope)) as (HS1 & HN1).
  destruct (guarded_body _ _ (quadratic_body offset slope slope2))
    as (HS2 & HN2).
  split; [|split].
  - intros Ha Ho Hs Hs2.
    destruct (for_loop_pointwise _ _ HS1 (Z.to_nat length) 0 array)
      as (a1 & Hrun1 & _); [lia| |].
    { intros i x Hi _.
      destruct (lookup_lt_is_Some_2 offset i ltac:(lia)) as [o ->].
      destruct (lookup_lt_is_Some_2 slope i ltac:(lia)) as [sl ->].
      destruct (valid x); eauto. }
    destruct (for_loop_pointwise _ _ HS2 (Z.to_nat length) 0 array)
      as (a2 & Hrun2 & _); [lia| |].
    { intros i x Hi _.
      destruct (lookup_lt_is_Some_2 offset i ltac:(lia)) as [o ->].
      destruct (lookup_lt_is_Some_2 slope i ltac:(lia)) as [sl ->].
      destruct (lookup_lt_is_Some_2 slope2 i ltac:(lia)) as [sl2 ->].
      destruct (valid x); eauto. }
    exists a1, a2. split; [exact Hrun1|exact Hrun2].
  - intros array' Hrun.
    destruct (for_loop_returned _ _ HS1 HN1 (Z.to_nat length) 0
                array array' ltac:(lia) Hrun) as (_ & Hl & Hin & Hout).
    split; [exact Hl|]. split; [|intros i Hi; apply Hout; lia].
    intros i x Hi Hx. rewrite (Hin i x ltac:(lia) Hx). split.
    + intros ->. reflexivity.
    + intros o sl -> ->. unfold linear_calibrate_value.
      destruct (valid x); reflexivity.
  - intros array' Hrun.
    destruct (for_loop_returned _ _ HS2 HN2 (Z.to_nat length) 0
                array array' ltac:(lia) Hrun) as (_ & Hl & Hin & Hout).
    split; [exact Hl|]. split; [|intros i Hi; apply Hout; lia].
    intros i x Hi Hx. rewrite (Hin i x ltac:(lia) Hx). split.
    + intros ->. reflexivity.
    + intros o sl sl2 -> -> ->. unfold quadratic_calibrate_value.
      destruct (valid x); reflexivity.
Qed.

Lemma polynomial_body (order : Z) (coeff : list (list T)) (i : nat)
    (array : list T) :
  match array !! i with
  | None => None
  | Some x =>
      if valid x then
        match
          polynomial_sum add mul pow order
            (fun j => match coeff !! j with
                      | None => None
                      | Some row => row !! i
                      end)
            x zero
        with
        | None => None
        | Some y => store_at array i y
        end
      else Some array
  end
  = match array !! i with
    | None => None
    | Some x =>
        match
          (if valid x then
             polynomial_sum add mul pow order
               (fun j => match coeff !! j with
                         | None => None
                         | Some row => row !! i
                         end)
               x zero
           else Some x)
        with
        | None => None
        | Some y => Some (<[i := y]> array)
        end
    end.
Proof.
  destruct (array !! i) as [x|] eqn:Hx; [|reflexivity].
  destruct (valid x).
  - destruct (polynomial_sum _ _ _ _ _ _ _) as [y|]; [|reflexivity].
    exact (store_at_Some array i x y Hx).
  - rewrite list_insert_id by exact Hx. reflexivity.
Qed.

(** X18. [polynomial_calibrate] with an [order] of zero or less reads no
    coefficient and replaces every valid value by 0; a value that is not
    valid is left untouched. The array form does so at the indices below
    [length], for any coefficients. *)
Theorem polynomial_calibrate_order_zero (order : Z) :
  order <= 0 ->
  (forall value coeff,
      polynomial_calibrate_value valid zero add mul pow order value coeff
      = Some (if valid value then zero else value)) /\
  (forall array length coeff,
      (Z.to_nat length <= List.length array)%nat ->
      exists array',
        polynomial_calibrate valid zero add mul pow order array length coeff
        = Some array' /\
        List.length array' = List.length array /\
        (forall (i : nat) x,
            (i < Z.to_nat length)%nat -> array !! i = Some x ->
            array' !! i = Some (if valid x then zero else x)) /\
        (forall i : nat, (Z.to_nat length <= i)%nat ->
                         array' !! i = array !! i)).
Proof.
  intros Horder.
  assert (Hsum : forall coeff value0,
            polynomial_sum add mul pow order coeff value0 zero = Some zero).
  { intros coeff value0. unfold polynomial_sum.
    replace (Z.to_nat order) with 0%nat by lia. reflexivity. }
  split.
  - intros value coeff. unfold polynomial_calibrate_value. rewrite Hsum.
    destruct (valid value); reflexivity.
  - intros array length coeff Ha. unfold polynomial_calibrate.
    destruct (guarded_body _ _ (polynomial_body order coeff)) as (HS & _).
    destruct (for_loop_pointwise _ _ HS (Z.to_nat length) 0 array)
      as (a' & Hrun & Hl & Hin & Hout); [lia| |].
    { intros i x Hi _. rewrite Hsum. destruct (valid x); eauto. }
    exists a'. split; [exact Hrun|]. split; [exact Hl|].
    split; [|intros i Hi; apply Hout; lia].
    intros i x Hi Hx. rewrite (Hin i x ltac:(lia) Hx), Hsum.
    destruct (valid x); reflexivity.
Qed.

Lemma for_loop_ext {St : Type} (body1 body2 : nat -> St -> option St) :
  (forall i s, body1 i s = body2 i s) ->
  forall todo k s, for_loop body1 k todo s = for_loop body2 k todo s.
Proof.
  intros Hext todo. induction todo as [|todo IH]; intros k s; cbn [for_loop].
  - reflexivity.
  - rewrite Hext. destruct (body2 k s); [apply IH|reflexivity].
Qed.

(** X19. The [order] of [polynomial_calibrate] counts the coefficients,
    not the degree: with order 2 it is the linear calibration whose offset
    is the coefficient of index 0 and whose slope is the coefficient of
    index 1, for a single value and for an array, provided the arithmetic
    of [T] knows that [c * pow(x, 0)] is [c], [0 + c] is [c], [pow(x, 1)] is
    [x] and the product commutes. *)
Theorem polynomial_order_two_is_linear :
  (forall c x, mul c (pow x 0) = c) ->
  (forall c, add zero c = c) ->
  (forall x, pow x 1 = x) ->
  (forall a b, mul a b = mul b a) ->
  (forall value c0 c1 rest,
      polynomial_calibrate_value valid zero add mul pow 2 value
                                 (c0 :: c1 :: rest)
      = Some (linear_calibrate_value valid add mul value c0 c1)) /\
  (forall array length offset slope rest,
      polynomial_calibrate valid zero add mul pow 2 array length
                           (offset :: slope :: rest)
      = linear_calibrate valid add mul array length offset slope).
Proof.
  intros Hpow0 Hzero Hpow1 Hcomm. split.
  - intros value c0 c1 rest.
    unfold polynomial_calibrate_value, linear_calibrate_value, polynomial_sum.
    destruct (valid value); [|reflexivity].
    change (Z.to_nat 2) with 2%nat. cbn.
    rewrite Hpow0, Hzero, Hpow1, (Hcomm c1 value). reflexivity.
  - intros array length offset slope rest.
    unfold polynomial_calibrate, linear_calibrate.
    apply for_loop_ext. intros i a.
    destruct (a !! i) as [x|]; [|reflexivity].
    destruct (valid x); [|reflexivity].
    unfold polynomial_sum. change (Z.to_nat 2) with 2%nat. cbn.
    destruct (offset !! i) as [o|]; [|reflexivity].
    destruct (slope !! i) as [sl|]; [|reflexivity].
    rewrite Hpow0, Hzero, Hpow1, (Hcomm sl x). reflexivity.
Qed.

End Calibration.

Lemma pedestal_subtract_idempotent_witness :
  pedestal_subtract Utils.NO_DATA Z.ltb [13; 16; 21; 444] 4 [32; 17; 21; 46]
  = Some [-1; -1; 21; 444] /\
  pedestal_subtract Utils.NO_DATA Z.ltb [-1; -1; 21; 444] 4 [32; 17; 21; 46]
  = Some [-1; -1; 21; 444].
Proof.
  split; [reflexivity|].
  apply (proj2 (pedestal_subtract_idempotent Utils.NO_DATA Z.ltb
                  [13; 16; 21; 444] 4 [32; 17; 21; 46])).
  reflexivity.
Defined.

Lemma calibrate_pointwise_witness :
  linear_calibrate Utils.is_valid Z.add Z.mul [1; -1; 3; 4] 3 [0; 1; 2] [2; 1; 0]
  = Some [2; -1; 2; 4] /\
  exists array',
    quadratic_calibrate Utils.is_valid Z.add Z.mul Z.pow
                        [1; -1; 3; 4] 3 [0; 1; 2] [2; 1; 0] [1; 1; 1]
    = Some array' /\
    array' !! 1%nat = Some (-1) /\
    array' !! 3%nat = Some 4.
Proof.
  split; [reflexivity|].
  destruct (calibrate_pointwise Utils.is_valid Z.add Z.mul Z.pow
              [1; -1; 3; 4] 3 [0; 1; 2] [2; 1; 0] [1; 1; 1])
    as (Hret & _ & Hquad).
  destruct Hret as (a1 & a2 & _ & Hrun2); try (cbn; lia).
  destruct (Hquad a2 Hrun2) as (_ & Hin & Hout).
  exists a2. split; [exact Hrun2|]. split.
  - apply (Hin 1%nat (-1)); [lia|reflexivity|reflexivity].
  - rewrite (Hout 3%nat) by lia. reflexivity.
Defined.

Lemma polynomial_calibrate_order_zero_witness :
  polynomial_calibrate_value Utils.is_valid 0 Z.add Z.mul Z.pow 0 7 [5; 6]
  = Some 0 /\
  polynomial_calibrate_value Utils.is_valid 0 Z.add Z.mul Z.pow 0 (-1) [5; 6]
  = Some (-1).
Proof.
  destruct (polynomial_calibrate_order_zero Utils.is_valid 0 Z.add Z.mul
              Z.pow 0 ltac:(lia)) as [Hvalue _].
  split; rewrite Hvalue; reflexivity.
Defined.

Lemma polynomial_order_two_is_linear_witness :
  polynomial_calibrate_value Utils.is_valid 0 Z.add Z.mul Z.pow 2 10 [3; 4]
  = Some 43 /\
  polynomial_calibrate Utils.is_valid 0 Z.add Z.mul Z.pow 2 [1; -1; 3] 3
                       [[0; 1; 2]; [2; 1; 0]]
  = linear_calibrate Utils.is_valid Z.add Z.mul [1; -1; 3] 3 [0; 1; 2] [2; 1; 0].
Proof.
  destruct (polynomial_order_two_is_linear Utils.is_valid 0 Z.add Z.mul Z.pow)
    as [Hvalue Harray].
  - intros c x. change (x ^ 0) with 1. lia.
  - intros c. lia.
  - intros x. apply Z.pow_1_r.
  - intros a b. lia.
  - split; [rewrite Hvalue; reflexivity|apply Harray].
Defined.

End FunctionsTheorems.

(** ** Routing of events and the codes recorded *)

Module RoutingTheorems.
Import TStamp Unpack.

Lemma fUnpacked_ProcessCoinc (e1 e2 : PendingEvent) (u : Unpacker) :
  fUnpacked (ProcessCoinc e1 e2 u) = fUnpacked u \/
  fUnpacked (ProcessCoinc e1 e2 u) = fUnpacked u ++ [DRAGON_COINC_EVENT].
Proof.
  unfold ProcessCoinc. destruct (same_subsystem _ _); [left|right]; reflexivity.
Qed.

(** X20. [UnpackMidasEvent] returns for every event and in either mode:
    it never goes through a null queue pointer. It returns at most one
    code, the codes recorded before the call are dropped and have no
    influence on the result, and the queue pointer is null afterwards
    exactly when it was before. *)
Theorem unpack_midas_event_codes (event : MidasEvent) (u : Unpacker) :
  exists u' codes,
    UnpackMidasEvent event u = Ok (u', codes) /\
    fUnpacked u' = codes /\
    (length codes <= 1)%nat /\
    (forall earlier,
        UnpackMidasEvent event
          (mkUnpacker (fCoincWindow u) (fQueue u) (fDiag u) earlier)
        = Ok (u', codes)) /\
    (fQueue u' = None <-> fQueue u = None).
Proof.
  unfold UnpackMidasEvent, IsSinglesMode, Push. cbn [fQueue fDiag fCoincWindow].
  destruct (fQueue u) as [q|] eqn:Hq.
  - destruct (fEventId event);
      try (eexists _, _; split; [reflexivity|]; split; [reflexivity|];
           split; [cbn; lia|]; split; [reflexivity|];
           cbn [fQueue push_back UnpackHeadScaler UnpackTailScaler
                UnpackRunParameters]; split; discriminate).
    + destruct (push Head (fTimestamp event) (fData event) q (fDiag u))
        as [[q' d'] [c|]].
      * eexists _, _. split; [reflexivity|]. split; [reflexivity|].
        split; [|split; [reflexivity|]].
        -- destruct (fUnpacked_ProcessCoinc (coinc_head c) (coinc_tail c)
                       (set_queue q' d'
                          (mkUnpacker (fCoincWindow u) (Some q) (fDiag u) [])))
             as [-> | ->]; cbn; lia.
        -- rewrite UnpackTheorems.fQueue_ProcessCoinc. cbn. split; discriminate.
      * eexists _, _. split; [reflexivity|]. split; [reflexivity|].
        split; [cbn; lia|]. split; [reflexivity|]. cbn. split; discriminate.
    + destruct (push Tail (fTimestamp event) (fData event) q (fDiag u))
        as [[q' d'] [c|]].
      * eexists _, _. split; [reflexivity|]. split; [reflexivity|].
        split; [|split; [reflexivity|]].
        -- destruct (fUnpacked_ProcessCoinc (coinc_head c) (coinc_tail c)
                       (set_queue q' d'
                          (mkUnpacker (fCoincWindow u) (Some q) (fDiag u) [])))
             as [-> | ->]; cbn; lia.
        -- rewrite UnpackTheorems.fQueue_ProcessCoinc. cbn. split; discriminate.
      * eexists _, _. split; [reflexivity|]. split; [reflexivity|].
        split; [cbn; lia|]. split; [reflexivity|]. cbn. split; discriminate.
  - destruct (fEventId event);
      eexists _, _; (split; [reflexivity|]); (split; [reflexivity|]);
      (split; [cbn; lia|]); (split; [reflexivity|]); cbn; tauto.
Qed.

(** X21. Which events leave the queue and the diagnostics alone: in singles
    mode every event, and in coincidence mode every event but the head and
    tail events; the scaler, begin-of-run, end-of-run and unrecognized
    events never reach the queue. The begin-of-run and the end-of-run
    events are both recorded as run parameters, and an event with any
    other id is recorded as nothing. *)
Theorem events_bypassing_queue (event : MidasEvent) (u u' : Unpacker)
    (codes : list EventId) :
  fQueue u = None \/
  (fEventId event <> DRAGON_HEAD_EVENT /\ fEventId event <> DRAGON_TAIL_EVENT) ->
  UnpackMidasEvent event u = Ok (u', codes) ->
  fQueue u' = fQueue u /\
  fDiag u' = fDiag u /\
  fCoincWindow u' = fCoincWindow u /\
  codes = match fEventId event with
          | DRAGON_HEAD_EVENT => [DRAGON_HEAD_EVENT]
          | DRAGON_TAIL_EVENT => [DRAGON_TAIL_EVENT]
          | DRAGON_HEAD_SCALER => [DRAGON_HEAD_SCALER]
          | DRAGON_TAIL_SCALER => [DRAGON_TAIL_SCALER]
          | MIDAS_BOR | MIDAS_EOR => [DRAGON_RUN_PARAMETERS]
          | _ => []
          end.
Proof.
  unfold UnpackMidasEvent, IsSinglesMode, Push. cbn [fQueue fDiag fCoincWindow].
  intros [Hnull|[Hh Ht]].
  - rewrite Hnull. destruct (fEventId event); intros [= <- <-];
      repeat split; symmetry; exact Hnull.
  - destruct (fEventId event); try contradiction;
      intros [= <- <-]; repeat split.
Qed.

Lemma events_bypassing_queue_witness :
  let u := Unpacker_new 5 2 diag_reset false in
  exists u',
    UnpackMidasEvent (mkMidasEvent MIDAS_EOR 0 []) u
    = Ok (u', [DRAGON_RUN_PARAMETERS]) /\
    fQueue u' = fQueue u.
Proof.
  intros u. eexists. split; [reflexivity|].
  eapply (events_bypassing_queue (mkMidasEvent MIDAS_EOR 0 []) u).
  - right. split; discriminate.
  - reflexivity.
Defined.

Section Flushing.

Variable Flush : Queue -> Z -> Diagnostics ->
                 Queue * Diagnostics * list PendingEvent.

Lemma singles_codes (singles : list PendingEvent) (u : Unpacker) :
  fUnpacked (foldl (fun u e => Process e u) u singles)
  = fUnpacked u
    ++ ((fun e => match subsystem e with
                  | Head => DRAGON_HEAD_EVENT
                  | Tail => DRAGON_TAIL_EVENT
                  end) <$> singles) /\
  fDiag (foldl (fun u e => Process e u) u singles) = fDiag u /\
  fQueue (foldl (fun u e => Process e u) u singles) = fQueue u.
Proof.
  revert u. induction singles as [|e singles IH]; intros u; cbn [foldl fmap list_fmap].
  - rewrite app_nil_r. auto.
  - destruct (IH (Process e u)) as (-> & -> & ->).
    unfold Process. destruct (subsystem e); cbn; rewrite <- app_assoc; auto.
Qed.

(** X22. The flushes add to the codes already recorded and drop none:
    [FlushQueue] appends, in the order the queue hands the singles over,
    the head or tail code of each, and [FlushQueueIterative] appends the
    code of the one event evicted, or nothing on an empty queue, and
    returns the size the queue reports. The queue and the diagnostics are
    those the queue operation left. *)
Theorem flush_appends_codes (u : Unpacker) (q : Queue) (flushTime : Z) :
  fQueue u = Some q ->
  (exists q' d' singles,
      Flush q flushTime (fDiag u) = (q', d', singles) /\
      exists u',
        FlushQueue Flush flushTime u = Ok u' /\
        fQueue u' = Some q' /\ fDiag u' = d' /\
        fUnpacked u'
        = fUnpacked u
          ++ ((fun e => match subsystem e with
                        | Head => DRAGON_HEAD_EVENT
                        | Tail => DRAGON_TAIL_EVENT
                        end) <$> singles)) /\
  (exists q' d' single size,
      flush_iterative q (fDiag u) = (q', d', single, size) /\
      exists u',
        FlushQueueIterative u = Ok (u', size) /\
        fQueue u' = Some q' /\ fDiag u' = d' /\
        fUnpacked u'
        = fUnpacked u
          ++ ((fun e => match subsystem e with
                        | Head => DRAGON_HEAD_EVENT
                        | Tail => DRAGON_TAIL_EVENT
                        end) <$> option_list single)).
Proof.
  intros Hq. split.
  - unfold FlushQueue. rewrite Hq.
    destruct (Flush q flushTime (fDiag u)) as [[q' d'] singles].
    exists q', d', singles. split; [reflexivity|]. eexists.
    split; [reflexivity|].
    destruct (singles_codes singles (set_queue q' d' u)) as (-> & -> & ->).
    repeat split.
  - unfold FlushQueueIterative. rewrite Hq.
    destruct (flush_iterative q (fDiag u)) as [[[q' d'] single] size].
    exists q', d', single, size. split; [reflexivity|]. eexists.
    split; [reflexivity|].
    destruct (singles_codes (option_list single) (set_queue q' d' u))
      as (-> & -> & ->).
    repeat split.
Qed.

End Flushing.

Lemma flush_appends_codes_witness :
  let Flush := fun (q : Queue) (_ : Z) (d : Diagnostics) =>
                 (mkQueue (window q) (timeout q) [] (arrivals q), d, pending q) in
  let q := mkQueue 5 50 [mkPending Tail 200 [] 0; mkPending Head 100 [] 1] 2 in
  let u := mkUnpacker 5 (Some q) diag_reset [DRAGON_HEAD_SCALER] in
  exists u',
    FlushQueue Flush 160 u = Ok u' /\
    fUnpacked u' = [DRAGON_HEAD_SCALER; DRAGON_TAIL_EVENT; DRAGON_HEAD_EVENT].
Proof.
  intros Flush q u.
  destruct (flush_appends_codes Flush u q 160 eq_refl)
    as [(q' & d' & singles & HF & u' & Hrun & _ & _ & Hcodes) _].
  exists u'. split; [exact Hrun|]. rewrite Hcodes.
  injection HF as _ _ <-. reflexivity.
Defined.

End RoutingTheorems.

(** ** Reading a histogram definition file *)

Module ParserTheorems.
Import HistParser.

Lemma replace_tab_hash (a : ascii) :
  Ascii.eqb (replace_tab a) "#" = Ascii.eqb a "#".
Proof.
  unfold replace_tab. destruct (Ascii.eqb_spec a "009") as [->|_]; reflexivity.
Qed.

Lemma replace_tab_not_tab (a : ascii) : Ascii.eqb (replace_tab a) "009" = false.
Proof.
  unfold replace_tab. destruct (Ascii.eqb_spec a "009") as [->|Hne].
  - reflexivity.
  - apply Ascii.eqb_neq. exact Hne.
Qed.

Lemma replace_tab_twice (a : ascii) : replace_tab (replace_tab a) = replace_tab a.
Proof.
  unfold replace_tab at 1. rewrite replace_tab_not_tab. reflexivity.
Qed.

Lemma find_char_for_each_hash (s : string) :
  find_char "#" (for_each replace_tab s) = find_char "#" s.
Proof.
  induction s as [|a s IH]; cbn [for_each find_char]; [reflexivity|].
  rewrite replace_tab_hash, IH. reflexivity.
Qed.

Lemma find_char_for_each_tab (s : string) :
  find_char "009" (for_each replace_tab s) = None.
Proof.
  induction s as [|a s IH]; cbn [for_each find_char]; [reflexivity|].
  rewrite replace_tab_not_tab, IH. reflexivity.
Qed.

Lemma for_each_twice (s : string) :
  for_each replace_tab (for_each replace_tab s) = for_each replace_tab s.
Proof.
  induction s as [|a s IH]; cbn [for_each]; [reflexivity|].
  rewrite replace_tab_twice, IH. reflexivity.
Qed.

(** Where [find] of a character stops: the text before it does not have
    the character, and the text from it on starts with it. *)
Lemma find_char_Some (c : ascii) (s : string) (p : nat) :
  find_char c s = Some p ->
  (p < String.length s)%nat /\
  find_char c (substr0 p s) = None /\
  exists post, s = substr0 p s +:+ String c post.
Proof.
  revert p. induction s as [|a s IH]; intros p; cbn [find_char];
    [discriminate|].
  destruct (Ascii.eqb_spec a c) as [->|Hne].
  - intros [= <-]. cbn. split; [lia|]. split; [reflexivity|].
    exists s. reflexivity.
  - destruct (find_char c s) as [p'|]; [|discriminate].
    intros [= <-]. destruct (IH p' eq_refl) as (Hlt & Hnone & post & Hpost).
    cbn [String.length substr0 find_char]. split; [lia|]. split.
    + apply Ascii.eqb_neq in Hne. rewrite Hne, Hnone. reflexivity.
    + exists post.
      change (String a s = String a (substr0 p' s +:+ String c post)).
      f_equal. exact Hpost.
Qed.

Lemma find_char_app (c : ascii) (pre post : string) :
  find_char c pre = None ->
  find_char c (pre +:+ String c post) = Some (String.length pre) /\
  substr0 (String.length pre) (pre +:+ String c post) = pre.
Proof.
  induction pre as [|a pre IH]; simpl.
  - intros _. rewrite Ascii.eqb_refl. split; reflexivity.
  - destruct (Ascii.eqb a c); [discriminate|].
    destruct (find_char c pre); [discriminate|]. intros _.
    destruct (IH eq_refl) as [-> ->]. split; reflexivity.
Qed.

Lemma substr0_length (n : nat) (s : string) :
  (String.length (substr0 n s) <= String.length s)%nat.
Proof.
  revert s. induction n as [|n IH]; intros [|a s]; cbn; try lia.
  specialize (IH s). lia.
Qed.

Lemma for_each_length (f : ascii -> ascii) (s : string) :
  String.length (for_each f s) = String.length s.
Proof. induction s as [|a s IH]; cbn; [reflexivity|]. rewrite IH. reflexivity. Qed.

(** The text [read_line] leaves, by where the first [#] stands. *)
Lemma read_line_text (fLine : string) (fLineNumber : nat) :
  find_char "#" (fst (read_line fLine fLineNumber)) = None /\
  (find_char "#" fLine = None ->
   fst (read_line fLine fLineNumber) = for_each replace_tab fLine) /\
  (forall pre post,
      find_char "#" pre = None ->
      fLine = pre +:+ String "#" post ->
      fst (read_line fLine fLineNumber) = for_each replace_tab pre).
Proof.
  unfold read_line. cbn [fst]. split; [|split].
  - rewrite find_char_for_each_hash.
    destruct (find_char "#" fLine) as [p|] eqn:Hp; [|exact Hp].
    destruct (find_char_Some _ _ _ Hp) as (Hlt & Hnone & _).
    apply Nat.ltb_lt in Hlt. rewrite Hlt. exact Hnone.
  - intros ->. reflexivity.
  - intros pre post Hpre ->.
    destruct (find_char_app "#" pre post Hpre) as [-> Hsub].
    assert (Hlt : (String.length pre
                   <? String.length (pre +:+ String "#" post))%nat = true).
    { apply Nat.ltb_lt. clear. induction pre as [|a pre IH]; simpl; lia. }
    rewrite Hlt, Hsub. reflexivity.
Qed.

(** X23. The line [read_line] leaves in [fLine] has no [#] and no tab and
    is not longer than the line read; the line number goes up by one. What
    stands from the first [#] on is dropped: the result is the text before
    it, each tab replaced by a space. Cleaning a cleaned line changes
    nothing. *)
Theorem read_line_clean (fLine : string) (fLineNumber : nat) :
  let text := fst (read_line fLine fLineNumber) in
  snd (read_line fLine fLineNumber) = S fLineNumber /\
  find_char "#" text = None /\
  find_char "009" text = None /\
  (String.length text <= String.length fLine)%nat /\
  (forall n, fst (read_line text n) = text) /\
  (find_char "#" fLine = None -> text = for_each replace_tab fLine) /\
  (forall pre post,
      find_char "#" pre = None ->
      fLine = pre +:+ String "#" post ->
      text = for_each replace_tab pre).
Proof.
  unfold read_line. cbn [fst snd].
  split; [reflexivity|].
  assert (Hhash : find_char "#"
            (for_each replace_tab
               match find_char "#" fLine with
               | Some ppos =>
                   if (ppos <? String.length fLine)%nat
                   then substr0 ppos fLine else fLine
               | None => fLine
               end) = None).
  { rewrite find_char_for_each_hash.
    destruct (find_char "#" fLine) as [p|] eqn:Hp; [|exact Hp].
    destruct (find_char_Some _ _ _ Hp) as (Hlt & Hnone & _).
    apply Nat.ltb_lt in Hlt. rewrite Hlt. exact Hnone. }
  split; [exact Hhash|]. split; [apply find_char_for_each_tab|].
  split; [|split; [|split]].
  - rewrite for_each_length.
    destruct (find_char "#" fLine) as [p|]; [|lia].
    destruct (p <? String.length fLine)%nat; [apply substr0_length|lia].
  - intros n. rewrite Hhash. apply for_each_twice.
  - intros ->. reflexivity.
  - intros pre post Hpre ->.
    destruct (find_char_app "#" pre post Hpre) as [-> Hsub].
    assert (Hlt : (String.length pre
                   <? String.length (pre +:+ String "#" post))%nat = true).
    { apply Nat.ltb_lt. clear. induction pre as [|a pre IH]; simpl; lia. }
    rewrite Hlt, Hsub. reflexivity.
Qed.

Lemma read_line_clean_witness :
  fst (read_line ("TH1D:" +:+ String "009" "# gHead") 3) = "TH1D: "%string.
Proof.
  destruct (read_line_clean ("TH1D:" +:+ String "009" "# gHead") 3)
    as (_ & _ & _ & _ & _ & _ & H).
  rewrite (H ("TH1D:" +:+ String "009" "") " gHead"%string); reflexivity.
Defined.

Lemma append_String (a : ascii) (s t : string) :
  String a s +:+ t = String a (s +:+ t).
Proof. reflexivity. Qed.

Lemma prefix_iff (arg s : string) :
  String.prefix arg s = true <-> exists post, s = arg +:+ post.
Proof.
  revert s. induction arg as [|a arg IH]; intros s.
  - split; [intros _; exists s; reflexivity|]. intros _. destruct s; reflexivity.
  - destruct s as [|b s]; simpl.
    + split; [discriminate|]. intros [post Hpost]. discriminate.
    + destruct (Ascii.ascii_dec a b) as [->|Hne].
      * rewrite IH. split; intros [post Hpost]; exists post.
        -- rewrite append_String. f_equal. exact Hpost.
        -- rewrite append_String in Hpost. injection Hpost as Hpost.
           exact Hpost.
      * split; [discriminate|]. intros [post Hpost].
        rewrite append_String in Hpost. injection Hpost as Hab _. congruence.
Qed.

Lemma find_unfold (arg s : string) :
  find arg s
  = if String.prefix arg s then Some 0%nat
    else match s with
         | EmptyString => None
         | String _ s' => match find arg s' with
                          | Some p => Some (S p)
                          | None => None
                          end
         end.
Proof. destruct s; reflexivity. Qed.

Lemma find_Some (arg s : string) (p : nat) :
  find arg s = Some p ->
  exists pre post, s = pre +:+ arg +:+ post /\ String.length pre = p.
Proof.
  revert p. induction s as [|a s IH]; intros p; rewrite find_unfold.
  - destruct (String.prefix arg "") eqn:Hpre; [|discriminate].
    intros [= <-]. apply prefix_iff in Hpre as [post Hpost].
    exists ""%string, post. split; [exact Hpost|reflexivity].
  - destruct (String.prefix arg (String a s)) eqn:Hpre.
    + intros [= <-]. apply prefix_iff in Hpre as [post Hpost].
      exists ""%string, post. split; [exact Hpost|reflexivity].
    + destruct (find arg s) as [p'|]; [|discriminate]. intros [= <-].
      destruct (IH p' eq_refl) as (pre & post & -> & <-).
      exists (String a pre), post. split; reflexivity.
Qed.

Lemma find_None (arg s : string) :
  find arg s = None -> forall pre post, s <> pre +:+ arg +:+ post.
Proof.
  induction s as [|a s IH]; rewrite find_unfold.
  - destruct (String.prefix arg "") eqn:Hpre; [discriminate|]. intros _.
    intros [|b pre] post Heq; [|discriminate].
    assert (H : String.prefix arg "" = true)
      by (apply prefix_iff; exists post; exact Heq).
    congruence.
  - destruct (String.prefix arg (String a s)) eqn:Hpre; [discriminate|].
    destruct (find arg s) as [p'|] eqn:Hfind; [discriminate|]. intros _.
    intros [|b pre] post Heq.
    + assert (H : String.prefix arg (String a s) = true)
        by (apply prefix_iff; exists post; exact Heq).
      congruence.
    + rewrite append_String in Heq. injection Heq as _ Heq.
      exact (IH eq_refl pre post Heq).
Qed.

Lemma length_append (a b : string) :
  String.length (a +:+ b) = (String.length a + String.length b)%nat.
Proof.
  induction a as [|c a IH]; [reflexivity|].
  rewrite append_String. cbn [String.length]. rewrite IH. reflexivity.
Qed.

(** [contains] is occurrence in a text that is not empty. *)
Lemma contains_occurs (s arg : string) :
  contains s arg = true <->
  s <> ""%string /\ exists pre post, s = pre +:+ arg +:+ post.
Proof.
  unfold contains. split.
  - destruct (find arg s) as [p|] eqn:Hfind; [|discriminate].
    intros Hlt. apply Nat.ltb_lt in Hlt. split.
    + intros ->. simpl in Hlt. lia.
    + destruct (find_Some arg s p Hfind) as (pre & post & Hs & _). eauto.
  - intros [Hne (pre & post & Hs)].
    destruct (find arg s) as [p|] eqn:Hfind;
      [|exfalso; exact (find_None arg s Hfind pre post Hs)].
    apply Nat.ltb_lt.
    destruct (find_Some arg s p Hfind) as (pre' & post' & Hs' & Hp).
    assert (Hlen : String.length s
                   = (p + String.length arg + String.length post')%nat).
    { rewrite Hs' at 1. rewrite !length_append. lia. }
    destruct arg as [|a arg]; [|simpl in Hlen; lia].
    rewrite find_unfold in Hfind.
    replace (String.prefix "" s) with true in Hfind
      by (symmetry; apply prefix_iff; exists s; reflexivity).
    injection Hfind as <-. destruct s; [congruence|simpl; lia].
Qed.

(** X24. [contains(s, arg)] holds exactly when [s] is not empty and [arg]
    occurs in it. An empty [s] contains nothing, not even the empty
    string, and a non-empty [s] contains the empty string. *)
Theorem contains_iff (s arg : string) :
  (contains s arg = true <->
   s <> ""%string /\ exists pre post, s = pre +:+ arg +:+ post) /\
  contains "" arg = false /\
  (s <> ""%string -> contains s "" = true).
Proof.
  split; [apply contains_occurs|]. split.
  - destruct (contains "" arg) eqn:H; [|reflexivity].
    apply contains_occurs in H as [Hne _]. congruence.
  - intros Hne. apply contains_occurs. split; [exact Hne|].
    exists ""%string, s. reflexivity.
Qed.

Lemma contains_iff_witness :
  contains "rootana::gHead.bgo" "gHead" = true /\
  contains "" "" = false.
Proof.
  split.
  - apply contains_iff. split; [discriminate|].
    exists "rootana::"%string, ".bgo"%string. reflexivity.
  - apply (contains_iff "" "").
Defined.

(** X26. [get_type] gives no event type (the value -1) exactly when the
    parameter names none of [rootana::gHead], [rootana::gTail] and
    [rootana::gCoinc]. The first of the three names found decides: a
    parameter naming [rootana::gHead] is a head parameter whatever else it
    names, and one naming [rootana::gTail] and not [rootana::gHead] is a
    tail parameter. *)
Theorem get_type_first_name (spar : string) :
  (get_type spar = None <->
   forall name,
     name = "rootana::gHead"%string \/ name = "rootana::gTail"%string \/
     name = "rootana::gCoinc"%string ->
     forall pre post, spar <> pre +:+ name +:+ post) /\
  (forall pre post,
      spar = pre +:+ "rootana::gHead" +:+ post ->
      get_type spar = Some Unpack.DRAGON_HEAD_EVENT) /\
  (forall pre post,
      spar = pre +:+ "rootana::gTail" +:+ post ->
      (forall pre' post', spar <> pre' +:+ "rootana::gHead" +:+ post') ->
      get_type spar = Some Unpack.DRAGON_TAIL_EVENT).
Proof.
  assert (Hocc : forall name : string,
            name <> ""%string ->
            (contains spar name = true <->
             exists pre post, spar = pre +:+ name +:+ post)).
  { intros name Hname. rewrite contains_occurs. split; [tauto|].
    intros (pre & post & Hs). split; [|eauto].
    intros ->. destruct pre; [|discriminate].
    destruct name; [congruence|discriminate]. }
  assert (Hfalse : forall name : string,
            name <> ""%string ->
            (contains spar name = false <->
             forall pre post, spar <> pre +:+ name +:+ post)).
  { intros name Hname. rewrite <- not_true_iff_false, (Hocc name Hname).
    split; [intros H pre post Hs; apply H; eauto
           |intros H (pre & post & Hs); exact (H pre post Hs)]. }
  unfold get_type. split; [|split].
  - split.
    + destruct (contains spar "rootana::gHead") eqn:H1; [discriminate|].
      destruct (contains spar "rootana::gTail") eqn:H2; [discriminate|].
      destruct (contains spar "rootana::gCoinc") eqn:H3; [discriminate|].
      intros _ name [-> | [-> | ->]]; apply Hfalse;
        (discriminate || assumption).
    + intros H.
      rewrite (proj2 (Hfalse "rootana::gHead"%string ltac:(discriminate)))
        by (apply H; auto).
      rewrite (proj2 (Hfalse "rootana::gTail"%string ltac:(discriminate)))
        by (apply H; auto).
      rewrite (proj2 (Hfalse "rootana::gCoinc"%string ltac:(discriminate)))
        by (apply H; auto).
      reflexivity.
  - intros pre post Hs.
    rewrite (proj2 (Hocc "rootana::gHead"%string ltac:(discriminate)))
      by eauto.
    reflexivity.
  - intros pre post Hs Hhead.
    rewrite (proj2 (Hfalse "rootana::gHead"%string ltac:(discriminate)))
      by exact Hhead.
    rewrite (proj2 (Hocc "rootana::gTail"%string ltac:(discriminate)))
      by eauto.
    reflexivity.
Qed.

Lemma get_type_first_name_witness :
  get_type "rootana::gTail.x - rootana::gHead.y"
  = Some Unpack.DRAGON_HEAD_EVENT.
Proof.
  apply (proj1 (proj2 (get_type_first_name
                         "rootana::gTail.x - rootana::gHead.y"))
           "rootana::gTail.x - "%string ".y"%string).
  reflexivity.
Defined.

(** X25. What [run] does with the line [read_line] hands over depends on
    the text before the first [#] only; a line that starts with [#], and an
    empty line, select no handler. Whenever the histogram handler is
    selected, the number of parameters it reads from its type is 1, 2 or 3,
    as its assertion asks. *)
Theorem run_line_comment (fLineNumber : nat) :
  (forall pre post,
      find_char "#" pre = None ->
      run_line (fst (read_line (pre +:+ String "#" post) fLineNumber))
      = run_line (fst (read_line pre fLineNumber))) /\
  (forall rest, run_line (fst (read_line (String "#" rest) fLineNumber)) = skip) /\
  run_line (fst (read_line "" fLineNumber)) = skip /\
  (forall fLine type,
      run_line fLine = handle_hist type ->
      exists n, npar type = Some n /\ 0 < n < 4).
Proof.
  split; [|split; [|split]].
  - intros pre post Hpre.
    destruct (read_line_text pre fLineNumber) as (_ & Hnone & Hsplit).
    destruct (read_line_text (pre +:+ String "#" post) fLineNumber)
      as (_ & _ & Hsplit').
    rewrite (Hsplit' pre post Hpre eq_refl), (Hnone Hpre). reflexivity.
  - intros rest.
    destruct (read_line_text (String "#" rest) fLineNumber) as (_ & _ & Hsplit).
    rewrite (Hsplit ""%string rest eq_refl eq_refl). reflexivity.
  - reflexivity.
  - intros fLine type. unfold run_line.
    repeat match goal with
           | |- context [if ?c then _ else _] => destruct c
           end; intros [= <-] || discriminate; eexists;
      (split; [reflexivity|]); vm_compute; split; reflexivity.
Qed.

Lemma run_line_comment_witness :
  run_line (fst (read_line "DIR: # TH1D: CUT:" 0)) = handle_dir /\
  exists n, npar "TH2D" = Some n /\ 0 < n < 4.
Proof.
  destruct (run_line_comment 0) as (Hsplit & _ & _ & Hnpar).
  split.
  - transitivity (run_line (fst (read_line "DIR: " 0))); [|reflexivity].
    exact (Hsplit "DIR: "%string " TH1D: CUT:"%string eq_refl).
  - apply (Hnpar "  TH2D: x"%string). reflexivity.
Defined.

End ParserTheorems.
